(** * Jordan Blake portfolio: scroll, theme and form managers

    A shallow embedding of the parts of
    [modules/animations.js], [modules/performance.js], [modules/theme.js]
    and [modules/forms.js] that decide the behaviour of the fade-in flag, the
    parallax transform, the scroll progress bar, the theme preference and the
    contact form, together with the properties proved about them.

    JavaScript values are modelled as the language defines them: a string is
    its sequence of UTF-16 code units, a number is an IEEE 754 binary64
    value (Rocq's primitive [float]), and the conversions between the two
    ([Number::toString], [parseFloat]) follow ECMA-262. *)

From Stdlib Require Import ZArith QArith Lia List Ascii String.
From Stdlib Require Import Floats.PrimFloat Floats.SpecFloat Floats.FloatOps.
From Stdlib Require Import DecimalN DecimalPos.
From stdpp Require Import base option list gmap.

#[local] Set Warnings "-inexact-float,-clear-no-such-hyp".
Local Open Scope Z_scope.

(* ===================================================================== *)
(** ** JavaScript strings *)
(* ===================================================================== *)

Module JSString.

(** A string value is a finite sequence of 16-bit code units. *)
Abbreviation jsstring := (list N).

(** A source literal made of ASCII characters. *)
Fixpoint lit (s : string) : jsstring :=
  match s with
  | EmptyString => []
  | String c r => N_of_ascii c :: lit r
  end.

(** [===] on two strings. *)
Definition strict_eq (a b : jsstring) : bool := bool_decide (a = b).

(** [ToBoolean] of a string: only the empty string is falsy. *)
Definition truthy (s : jsstring) : bool :=
  match s with [] => false | _ :: _ => true end.

(** ECMA-262 WhiteSpace and LineTerminator code points; this is the set
    that [String.prototype.trim], [parseFloat] and the regular expression
    class [\s] all use. *)
Definition isWhiteSpace (c : N) : bool :=
  ((9 <=? c) && (c <=? 13) || (c =? 32) || (c =? 160) || (c =? 5760)
   || (8192 <=? c) && (c <=? 8202) || (c =? 8232) || (c =? 8233)
   || (c =? 8239) || (c =? 8287) || (c =? 12288) || (c =? 65279))%N.

Fixpoint trimStart (s : jsstring) : jsstring :=
  match s with
  | c :: r => if isWhiteSpace c then trimStart r else s
  | [] => []
  end.

Definition trimEnd (s : jsstring) : jsstring := rev (trimStart (rev s)).

(** [String.prototype.trim]. *)
Definition trim (s : jsstring) : jsstring := trimEnd (trimStart s).

Fixpoint startsWith (p s : jsstring) : option jsstring :=
  match p, s with
  | [], _ => Some s
  | a :: p', b :: s' => if (a =? b)%N then startsWith p' s' else None
  | _ :: _, [] => None
  end.

End JSString.
Export JSString.

(* ===================================================================== *)
(** ** JavaScript numbers *)
(* ===================================================================== *)

Module JSNumber.

Abbreviation number := float.

(** [ToBoolean] of a number: [+0], [-0] and [NaN] are falsy. *)
Definition truthy (x : number) : bool := negb (is_zero x || is_nan x).

(** *** Exact value of a finite binary64 and rounding to nearest-even *)

Definition Qpow2 (e : Z) : Q := Qpower (2 # 1) e.
Definition Qpow10 (e : Z) : Q := Qpower (10 # 1) e.

Definition Qltb (a b : Q) : bool :=
  match Qcompare a b with Lt => true | _ => false end.
Definition Qleb (a b : Q) : bool :=
  match Qcompare a b with Gt => false | _ => true end.

(** [floor q]. *)
Definition Qfloor' (q : Q) : Z := Qnum q / Zpos (Qden q).

(** The binary64 value nearest to the non-negative rational [q], ties to
    the even significand; overflow gives [infinity]. *)
Definition round_Q (q : Q) : number :=
  if Qleb q 0 then zero
  else
    let e0 := Z.log2 (Qnum q) - Z.log2 (Zpos (Qden q)) - 52 in
    let e1 := if Qltb (q * Qpow2 (- e0)) (inject_Z (2 ^ 52)) then e0 - 1 else e0 in
    let e := Z.max e1 (-1074) in
    let scaled := (q * Qpow2 (- e))%Q in
    let f := Qfloor' scaled in
    let m :=
      match Qcompare (scaled - inject_Z f) (1 # 2) with
      | Lt => f
      | Gt => f + 1
      | Eq => if Z.even f then f else f + 1
      end in
    let '(m, e) := if m =? 2 ^ 53 then (2 ^ 52, e + 1) else (m, e) in
    if 971 <? e then infinity
    else match m with
         | Zpos p => SF2Prim (S754_finite false p e)
         | _ => zero
         end.

(** *** Number::toString (radix 10), ECMA-262 6.1.6.1.20 *)

Definition digit (d : Z) : N := Z.to_N (48 + d).

Fixpoint uint_units (u : Decimal.uint) : jsstring :=
  match u with
  | Decimal.Nil => []
  | Decimal.D0 r => digit 0 :: uint_units r
  | Decimal.D1 r => digit 1 :: uint_units r
  | Decimal.D2 r => digit 2 :: uint_units r
  | Decimal.D3 r => digit 3 :: uint_units r
  | Decimal.D4 r => digit 4 :: uint_units r
  | Decimal.D5 r => digit 5 :: uint_units r
  | Decimal.D6 r => digit 6 :: uint_units r
  | Decimal.D7 r => digit 7 :: uint_units r
  | Decimal.D8 r => digit 8 :: uint_units r
  | Decimal.D9 r => digit 9 :: uint_units r
  end.

(** The decimal digits of a non-negative integer. *)
Definition decimal (n : Z) : jsstring := uint_units (N.to_uint (Z.to_N n)).

(** Does the decimal [s * 10^j] round to the binary64 [m * 2^e]?  The
    rounding interval reaches half a gap on each side (a quarter below a
    power of two) and contains its end points when [m] is even. *)
Definition rounds_to (m e s j : Z) : bool :=
  let d := (inject_Z s * Qpow10 j)%Q in
  let below := if (m =? 2 ^ 52) && (-1074 <? e) then 1 else 2 in
  let lo := (inject_Z (4 * m - below) * Qpow2 (e - 2))%Q in
  let hi := (inject_Z (4 * m + 2) * Qpow2 (e - 2))%Q in
  if Z.even m then Qleb lo d && Qleb d hi else Qltb lo d && Qltb d hi.

(** The least [n] with [x < 10^n], searched upwards from [n]. *)
Fixpoint magnitude (fuel : nat) (x : Q) (n : Z) : Z :=
  match fuel with
  | O => n
  | S fuel' => if Qltb x (Qpow10 n) then n else magnitude fuel' x (n + 1)
  end.

(** Step 5: the shortest digit string [s] (of [k] digits) and the exponent
    [n] with [s * 10^(n-k)] rounding to the number; among several [s] of
    that length the one closest to the number, the even one on a tie. *)
Fixpoint shortest (fuel : nat) (m e : Z) (x : Q) (n0 k : Z) : Z * Z * Z :=
  let j := n0 - k in
  let lo := Qfloor' (x * Qpow10 (- j)) in
  let hi := lo + 1 in
  let pick (s : Z) := if s =? 10 ^ k then (10 ^ (k - 1), n0 + 1, k) else (s, n0, k) in
  match fuel with
  | O => pick lo
  | S fuel' =>
      match rounds_to m e lo j, rounds_to m e hi j with
      | true, false => pick lo
      | false, true => pick hi
      | true, true =>
          match Qcompare (x - inject_Z lo * Qpow10 j) (inject_Z hi * Qpow10 j - x) with
          | Lt => pick lo
          | Gt => pick hi
          | Eq => if Z.even lo then pick lo else pick hi
          end
      | false, false => shortest fuel' m e x n0 (k + 1)
      end
  end.

Definition zeros (n : Z) : jsstring := repeat (digit 0) (Z.to_nat n).

(** Steps 6 to 10: the layout of the digits. *)
Definition layout (s n k : Z) : jsstring :=
  let ds := decimal s in
  if (k <=? n) && (n <=? 21) then ds ++ zeros (n - k)
  else if (0 <? n) && (n <=? 21) then
    take (Z.to_nat n) ds ++ lit "." ++ drop (Z.to_nat n) ds
  else if (-6 <? n) && (n <=? 0) then
    lit "0." ++ zeros (- n) ++ ds
  else
    let ex := n - 1 in
    let sign := if ex <? 0 then lit "-" else lit "+" in
    let mant := if k =? 1 then ds else take 1 ds ++ lit "." ++ drop 1 ds in
    mant ++ lit "e" ++ sign ++ decimal (Z.abs ex).

Definition toString (x : number) : jsstring :=
  match Prim2SF x with
  | S754_nan => lit "NaN"
  | S754_zero _ => lit "0"
  | S754_infinity false => lit "Infinity"
  | S754_infinity true => lit "-Infinity"
  | S754_finite sgn m e =>
      let q := (inject_Z (Zpos m) * Qpow2 e)%Q in
      let n0 := magnitude 640 q (-324) in
      let '(s, n, k) := shortest 17 (Zpos m) e q n0 1 in
      (if sgn then lit "-" else []) ++ layout s n k
  end.

(** *** parseFloat, ECMA-262 19.2.4 *)

Definition isDigit (c : N) : bool := ((48 <=? c) && (c <=? 57))%N.

(** The longest run of decimal digits at the head, and what follows. *)
Fixpoint span_digits (s : jsstring) : jsstring * jsstring :=
  match s with
  | c :: r =>
      if isDigit c then let '(ds, rest) := span_digits r in (c :: ds, rest)
      else ([], s)
  | [] => ([], [])
  end.

Definition digits_value (ds : jsstring) : Z :=
  foldl (fun acc c => 10 * acc + (Z.of_N c - 48)) 0 ds.

(** ExponentPart, when one is there: [e] or [E], an optional sign and at
    least one digit; otherwise nothing is consumed and the exponent is 0. *)
Definition exponent_part (s : jsstring) : Z :=
  match s with
  | c :: r =>
      if ((c =? 101) || (c =? 69))%N then
        let '(sgn, r') :=
          match r with
          | 43%N :: r' => (1, r')
          | 45%N :: r' => (-1, r')
          | _ => (1, r)
          end in
        match fst (span_digits r') with
        | [] => 0
        | ds => sgn * digits_value ds
        end
      else 0
  | [] => 0
  end.

(** The value of the longest prefix that is a StrUnsignedDecimalLiteral,
    if there is one. *)
Definition unsigned_literal (s : jsstring) : option number :=
  match startsWith (lit "Infinity") s with
  | Some _ => Some infinity
  | None =>
      let '(ip, r1) := span_digits s in
      let '(fp, r2) :=
        match r1 with
        | 46%N :: r => span_digits r
        | _ => ([], r1)
        end in
      match ip, fp with
      | [], [] => None
      | _, _ =>
          let ex := exponent_part r2 - Z.of_nat (length fp) in
          Some (round_Q (inject_Z (digits_value (ip ++ fp)) * Qpow10 ex))
      end
  end.

Definition parseFloat (input : jsstring) : number :=
  let s := trimStart input in
  let '(neg, body) :=
    match s with
    | 43%N :: r => (false, r)
    | 45%N :: r => (true, r)
    | _ => (false, s)
    end in
  match unsigned_literal body with
  | Some v => if neg then (- v)%float else v
  | None => nan
  end.

End JSNumber.

(* ===================================================================== *)
(** ** The document *)
(* ===================================================================== *)

Module DOM.

(** What the scripts read and write of an element.  [classList] is a
    DOMTokenList (an ordered set of tokens), [dataset] the [data-*]
    attributes, [style] the inline declarations the script assigns: the
    text is kept as assigned, whether the browser takes it for a value of
    the property is not the scripts' matter. *)
Record Element := mkElement {
  classList : list jsstring;
  dataset : gmap jsstring jsstring;
  style : gmap jsstring jsstring
}.

(** Elements are objects: the managers hold references into one shared
    document. *)
Abbreviation Document := (gmap nat Element).

Definition contains (token : jsstring) (el : Element) : bool :=
  bool_decide (token ∈ classList el).

(** [classList.add]: a token already present is not added again. *)
Definition classList_add (token : jsstring) (el : Element) : Element :=
  if contains token el then el
  else mkElement (classList el ++ [token]) (dataset el) (style el).

Definition set_style (prop value : jsstring) (el : Element) : Element :=
  mkElement (classList el) (dataset el) (<[prop := value]> (style el)).

Definition set_data (name value : jsstring) (el : Element) : Element :=
  mkElement (classList el) (<[name := value]> (dataset el)) (style el).

(** [nodes.forEach(f)] where [f] mutates the document through the node. *)
Definition forEach (f : nat → Document → Document) (nodes : list nat)
    (doc : Document) : Document :=
  foldl (fun d i => f i d) doc nodes.

(** The window as one event handler sees it.  The bounding box of an
    element is a matter of layout, which may depend on the classes set so
    far. *)
Record Window := mkWindow {
  scrollY : JSNumber.number;
  innerHeight : JSNumber.number;
  scrollHeight : JSNumber.number;
  rect_top : Document → nat → JSNumber.number
}.

End DOM.
Export DOM.

(* ===================================================================== *)
(** ** modules/animations.js: class AnimationManager *)
(* ===================================================================== *)

Module AnimationManager.
Import JSNumber.

(** The fields of the manager the scroll handlers use; the node lists are
    the results of [querySelectorAll('.fade-in')] and
    [querySelectorAll('.floating-element')]. *)
Record State := mkState {
  fadeElements : list nat;
  floatingElements : list nat;
  isAnimating : bool
}.

Definition visible : jsstring := lit "visible".
Definition speed : jsstring := lit "speed".
Definition transform : jsstring := lit "transform".

(** [element.dataset.speed || 0.1], written back to [dataset.speed]: the
    number 0.1 is stored as its string. *)
Definition setupFloatingElement (i : nat) (doc : Document) : Document :=
  alter (fun el =>
    let value :=
      match dataset el !! speed with
      | Some s => if JSString.truthy s then s else toString 0.1
      | None => toString 0.1
      end in
    set_data speed value el) i doc.

Definition setupFloatingElements (st : State) (doc : Document) : Document :=
  forEach setupFloatingElement (floatingElements st) doc.

(** [parseFloat(element.dataset.speed)]; a missing attribute reads as
    [undefined], which [parseFloat] turns into the string "undefined". *)
Definition parsedSpeed (el : Element) : number :=
  parseFloat (default (lit "undefined") (dataset el !! speed)).

(** [parseFloat(element.dataset.speed) || 0.1]. *)
Definition parallaxSpeed (el : Element) : number :=
  let parsed := parsedSpeed el in
  if truthy parsed then parsed else 0.1%float.

(** The template literal [`translateY(${translateY}px) rotate(${rotate}deg)`]. *)
Definition transformText (translateY rotate : number) : jsstring :=
  lit "translateY(" ++ toString translateY ++ lit "px) rotate("
    ++ toString rotate ++ lit "deg)".

Definition parallaxElement (scrolled : number) (el : Element) : Element :=
  let speed := parallaxSpeed el in
  let translateY := (scrolled * speed)%float in
  let rotate := (scrolled * 0.1)%float in
  set_style transform (transformText translateY rotate) el.

Definition updateParallax (w : Window) (st : State) (doc : Document) : Document :=
  let scrolled := scrollY w in
  forEach (fun i => alter (parallaxElement scrolled) i) (floatingElements st) doc.

(** The body of the [forEach] in [checkForNewAnimations]. *)
Definition checkElement (w : Window) (i : nat) (doc : Document) : Document :=
  match doc !! i with
  | Some el =>
      if negb (contains visible el) then
        let top := rect_top w doc i in
        let isVisible := (top <? innerHeight w * 0.8)%float in
        if isVisible then <[i := classList_add visible el]> doc else doc
      else doc
  | None => doc
  end.

Definition checkForNewAnimations (w : Window) (st : State) (doc : Document) : Document :=
  forEach (checkElement w) (fadeElements st) doc.

(** [handleScroll]: nothing happens while a frame is pending. *)
Definition handleScroll (w : Window) (sd : State * Document) : State * Document :=
  let '(st, doc) := sd in
  if isAnimating st then sd
  else
    let st' := mkState (fadeElements st) (floatingElements st) true in
    let doc1 := updateParallax w st' doc in
    let doc2 := checkForNewAnimations w st' doc1 in
    (st', doc2).

(** The callback given to [requestAnimationFrame]. *)
Definition animationFrame (sd : State * Document) : State * Document :=
  let '(st, doc) := sd in
  (mkState (fadeElements st) (floatingElements st) false, doc).

(** The callback of the IntersectionObserver set up over the fade-in
    elements: each entry names its target and says whether it intersects.
    (For a skill card the callback also starts a timer that scales the
    card's progress bar, another element.) *)
Definition observerCallback (entries : list (nat * bool)) (doc : Document)
    : Document :=
  foldl (fun d (entry : nat * bool) =>
           if entry.2 then alter (classList_add visible) entry.1 d else d)
    doc entries.

Inductive Event :=
| Scroll (w : Window)
| Frame
| Intersect (entries : list (nat * bool)).

Definition step (sd : State * Document) (ev : Event) : State * Document :=
  match ev with
  | Scroll w => handleScroll w sd
  | Frame => animationFrame sd
  | Intersect entries => (sd.1, observerCallback entries sd.2)
  end.

Definition run (evs : list Event) (sd : State * Document) : State * Document :=
  foldl step sd evs.

(** An element carries the class. *)
Definition isVisibleIn (doc : Document) (i : nat) : Prop :=
  ∃ el, doc !! i = Some el ∧ contains visible el = true.

End AnimationManager.

(* ===================================================================== *)
(** ** modules/performance.js: PerformanceManager.updateProgressBar *)
(* ===================================================================== *)

Module PerformanceManager.
Import JSNumber.

(** [progressBar] is [document.getElementById('progress')], [null] when
    the page has no such element. *)
Record State := mkState {
  progressBar : option nat
}.

Definition width : jsstring := lit "width".

(** The template literal [`${scrollPercent}%`]. *)
Definition percentText (scrollPercent : number) : jsstring :=
  toString scrollPercent ++ lit "%".

Definition scrollPercent (w : Window) : number :=
  let scrollTop := scrollY w in
  let docHeight := (scrollHeight w - innerHeight w)%float in
  (scrollTop / docHeight * 100)%float.

Definition updateProgressBar (w : Window) (st : State) (doc : Document) : Document :=
  match progressBar st with
  | None => doc
  | Some bar => alter (set_style width (percentText (scrollPercent w))) bar doc
  end.


End PerformanceManager.

(* ===================================================================== *)
(** ** modules/theme.js: class ThemeManager *)
(* ===================================================================== *)

Module ThemeManager.

(** The manager's flag together with the three places its methods write:
    the inline style of [document.documentElement], the [innerHTML] of the
    element [document.querySelector('.theme-toggle')] finds (if any) and
    [localStorage]. *)
Record State := mkState {
  isDarkTheme : bool;
  rootStyle : gmap jsstring jsstring;
  themeToggle : option jsstring;
  localStorage : gmap jsstring jsstring
}.

Definition storageKey : jsstring := lit "portfolio-theme".
Definition dark : jsstring := lit "dark".
Definition light : jsstring := lit "light".

(** The two icons, U+1F319 and U+2600 U+FE0F, as code units. *)
Definition moon : jsstring := [55356; 57113]%N.
Definition sun : jsstring := [9728; 65039]%N.

Definition darkPalette : list (jsstring * jsstring) :=
  [ (lit "--color-primary", lit "#0A0A0A");
    (lit "--color-secondary", lit "#1A1A1A");
    (lit "--color-tertiary", lit "#2A2A2A");
    (lit "--color-white", lit "#FFFFFF");
    (lit "--color-gray", lit "#666666");
    (lit "--color-light-gray", lit "#999999") ].

Definition lightPalette : list (jsstring * jsstring) :=
  [ (lit "--color-primary", lit "#FFFFFF");
    (lit "--color-secondary", lit "#F5F5F5");
    (lit "--color-tertiary", lit "#E0E0E0");
    (lit "--color-white", lit "#0A0A0A");
    (lit "--color-gray", lit "#666666");
    (lit "--color-light-gray", lit "#333333") ].

(** A run of [root.style.setProperty(name, value)] calls. *)
Definition setProperties (ps : list (jsstring * jsstring))
    (s : gmap jsstring jsstring) : gmap jsstring jsstring :=
  foldl (fun m p => <[p.1 := p.2]> m) s ps.

Definition palette (isDark : bool) : list (jsstring * jsstring) :=
  if isDark then darkPalette else lightPalette.

Definition applyTheme (st : State) : State :=
  let root := setProperties (palette (isDarkTheme st)) (rootStyle st) in
  let toggle :=
    match themeToggle st with
    | Some _ => Some (if isDarkTheme st then moon else sun)
    | None => None
    end in
  mkState (isDarkTheme st) root toggle (localStorage st).

Definition saveThemePreference (st : State) : State :=
  mkState (isDarkTheme st) (rootStyle st) (themeToggle st)
    (<[storageKey := if isDarkTheme st then dark else light]> (localStorage st)).

(** [getItem] gives [null] for a missing key; [if (savedTheme)] takes a
    non-empty string only. *)
Definition loadThemePreference (st : State) : State :=
  match localStorage st !! storageKey with
  | Some savedTheme =>
      if JSString.truthy savedTheme then
        applyTheme (mkState (strict_eq savedTheme dark) (rootStyle st)
                      (themeToggle st) (localStorage st))
      else st
  | None => st
  end.

(** The constructor sets the flag and calls [init]; of [init], the page
    given here is the one [setupThemeToggle] and [setupEasterEggs] leave
    (they register listeners and may append the toggle button), so that
    [loadThemePreference] is what remains. *)
Definition constructor (root : gmap jsstring jsstring)
    (toggle : option jsstring) (storage : gmap jsstring jsstring) : State :=
  loadThemePreference (mkState true root toggle storage).

Definition toggleTheme (st : State) : State :=
  let st1 := mkState (negb (isDarkTheme st)) (rootStyle st) (themeToggle st)
               (localStorage st) in
  saveThemePreference (applyTheme st1).

Definition setTheme (theme : jsstring) (st : State) : State :=
  if strict_eq theme dark || strict_eq theme light then
    let st1 := mkState (strict_eq theme dark) (rootStyle st) (themeToggle st)
                 (localStorage st) in
    saveThemePreference (applyTheme st1)
  else st.

Definition getCurrentTheme (st : State) : jsstring :=
  if isDarkTheme st then dark else light.

(** The palette variables as the root style holds them. *)
Definition appliedPalette (st : State) : list (option jsstring) :=
  map (fun p => rootStyle st !! p.1) darkPalette.

(** The inline palette, toggle icon and stored string are those that
    [applyTheme] and [saveThemePreference] leave for the current flag. *)
Definition inSync (st : State) : Prop :=
  applyTheme st = st ∧ saveThemePreference st = st.

End ThemeManager.

(* ===================================================================== *)
(** ** Regular expressions *)
(* ===================================================================== *)

Module Regex.

(** The fragment of the pattern language the scripts use, over code units
    (the patterns carry no [u] flag).  A whole-string pattern [^...$] is
    the expression between the anchors. *)
Inductive regex :=
| Empty
| Eps
| Class (p : N → bool)
| Cat (r1 r2 : regex)
| Alt (r1 r2 : regex)
| Star (r : regex).

(** [r+] *)
Definition Plus (r : regex) : regex := Cat r (Star r).

Fixpoint nullable (r : regex) : bool :=
  match r with
  | Empty => false
  | Eps => true
  | Class _ => false
  | Cat r1 r2 => nullable r1 && nullable r2
  | Alt r1 r2 => nullable r1 || nullable r2
  | Star _ => true
  end.

(** What is left of [r] to match after reading [c]. *)
Fixpoint deriv (c : N) (r : regex) : regex :=
  match r with
  | Empty => Empty
  | Eps => Empty
  | Class p => if p c then Eps else Empty
  | Cat r1 r2 =>
      if nullable r1 then Alt (Cat (deriv c r1) r2) (deriv c r2)
      else Cat (deriv c r1) r2
  | Alt r1 r2 => Alt (deriv c r1) (deriv c r2)
  | Star r1 => Cat (deriv c r1) (Star r1)
  end.

(** [/^r$/.test(s)] *)
Fixpoint test (r : regex) (s : jsstring) : bool :=
  match s with
  | [] => nullable r
  | c :: s' => test (deriv c r) s'
  end.

(** The strings a pattern denotes. *)
Inductive matches : regex → jsstring → Prop :=
| m_eps : matches Eps []
| m_class p c : p c = true → matches (Class p) [c]
| m_cat r1 r2 s1 s2 : matches r1 s1 → matches r2 s2 → matches (Cat r1 r2) (s1 ++ s2)
| m_alt_l r1 r2 s : matches r1 s → matches (Alt r1 r2) s
| m_alt_r r1 r2 s : matches r2 s → matches (Alt r1 r2) s
| m_star_nil r : matches (Star r) []
| m_star_cons r s1 s2 : matches r s1 → matches (Star r) s2 → matches (Star r) (s1 ++ s2).

End Regex.

(* ===================================================================== *)
(** ** modules/forms.js: class FormManager *)
(* ===================================================================== *)

Module FormManager.
Import Regex.

(** A form control: the element itself and the properties the manager
    reads.  [parentNode] names the parent element, [inForm] says whether
    the control belongs to the contact form (so that [reset()] restores
    its [defaultValue]). *)
Record Input := mkInput {
  node : Element;
  value : jsstring;
  defaultValue : jsstring;
  type : jsstring;
  required : bool;
  parentNode : nat;
  inForm : bool
}.

(** The submit button: the text of its [.button-text] child when it has
    one, its [disabled] property and its inline style. *)
Record Button := mkButton {
  buttonText : option jsstring;
  disabled : bool;
  buttonStyle : gmap jsstring jsstring
}.

(** For each parent node, the text of its [.input-error] descendants in
    tree order; [querySelector] finds the first, [appendChild] adds at the
    end.  Parents of different controls are taken to be the same node or
    unrelated nodes. *)
Abbreviation Errors := (gmap nat (list jsstring)).

Record State := mkState {
  contactForm : bool;
  submitButton : option Button;
  formInputs : list Input;
  errors : Errors;
  isSubmitting : bool;
  (** promises of [submitForm] whose 1500 ms timer has not fired *)
  inFlight : nat;
  (** pending 2000 ms timers of [showSuccessMessage] *)
  resetTimers : nat;
  (** the [.form-notification] elements in the body, oldest first *)
  notifications : list jsstring;
  (** calls of [console.error] *)
  consoleErrors : nat
}.

Definition set_inputs (ins : list Input) (e : Errors) (st : State) : State :=
  mkState (contactForm st) (submitButton st) ins e (isSubmitting st)
    (inFlight st) (resetTimers st) (notifications st) (consoleErrors st).

Definition set_button (b : option Button) (st : State) : State :=
  mkState (contactForm st) b (formInputs st) (errors st) (isSubmitting st)
    (inFlight st) (resetTimers st) (notifications st) (consoleErrors st).

Definition set_submitting (flag : bool) (st : State) : State :=
  mkState (contactForm st) (submitButton st) (formInputs st) (errors st) flag
    (inFlight st) (resetTimers st) (notifications st) (consoleErrors st).

Definition set_inFlight (n : nat) (st : State) : State :=
  mkState (contactForm st) (submitButton st) (formInputs st) (errors st)
    (isSubmitting st) n (resetTimers st) (notifications st) (consoleErrors st).

Definition set_resetTimers (n : nat) (st : State) : State :=
  mkState (contactForm st) (submitButton st) (formInputs st) (errors st)
    (isSubmitting st) (inFlight st) n (notifications st) (consoleErrors st).

Definition with_node (f : Element → Element) (i : Input) : Input :=
  mkInput (f (node i)) (value i) (defaultValue i) (type i) (required i)
    (parentNode i) (inForm i).

Definition with_value (v : jsstring) (i : Input) : Input :=
  mkInput (node i) v (defaultValue i) (type i) (required i)
    (parentNode i) (inForm i).

Definition classList_remove (token : jsstring) (el : Element) : Element :=
  mkElement (filter (fun t => t ≠ token) (classList el)) (dataset el) (style el).

(** Assigning the empty string to a style property removes the
    declaration. *)
Definition clear_style (prop : jsstring) (el : Element) : Element :=
  mkElement (classList el) (dataset el) (delete prop (style el)).

Definition error : jsstring := lit "error".
Definition borderColor : jsstring := lit "borderColor".
Definition transform : jsstring := lit "transform".
Definition background : jsstring := lit "background".

Definition clearInputError (i : Input) (e : Errors) : Input * Errors :=
  let i' := with_node (fun el => clear_style borderColor (classList_remove error el)) i in
  let e' :=
    match e !! parentNode i with
    | Some (_ :: rest) => <[parentNode i := rest]> e
    | _ => e
    end in
  (i', e').

Definition showInputError (message : jsstring) (i : Input) (e : Errors)
    : Input * Errors :=
  let '(i1, e1) := clearInputError i e in
  let e2 := <[parentNode i := default [] (e1 !! parentNode i) ++ [message]]> e1 in
  let i2 := with_node (fun el => set_style borderColor (lit "#ff6b6b")
                                  (classList_add error el)) i1 in
  (i2, e2).

(** [[^\s@]] *)
Definition notSpaceAt (c : N) : bool := negb (isWhiteSpace c || (c =? 64)%N).
Definition chr (k : N) : regex := Class (fun c => (c =? k)%N).

(** [/^[^\s@]+@[^\s@]+\.[^\s@]+$/] *)
Definition emailRegex : regex :=
  Cat (Plus (Class notSpaceAt))
    (Cat (chr 64)
       (Cat (Plus (Class notSpaceAt))
          (Cat (chr 46) (Plus (Class notSpaceAt))))).

(** What the pattern asks of a string, spelled out: three non-empty runs
    free of white space and of [@], joined by an [@] and a dot. *)
Definition plainRun (s : jsstring) : Prop :=
  s ≠ [] ∧ Forall (fun c => notSpaceAt c = true) s.
Definition emailShape (s : jsstring) : Prop :=
  ∃ name host rest,
    s = name ++ lit "@" ++ host ++ lit "." ++ rest
    ∧ plainRun name ∧ plainRun host ∧ plainRun rest.

Definition validateInput (i : Input) (e : Errors) : bool * (Input * Errors) :=
  let value := trim (value i) in
  let type := type i in
  let isRequired := required i in
  let '(i1, e1) := clearInputError i e in
  if isRequired && negb (JSString.truthy value) then
    (false, showInputError (lit "This field is required") i1 e1)
  else if strict_eq type (lit "email") && JSString.truthy value then
    if negb (test emailRegex value) then
      (false, showInputError (lit "Please enter a valid email address") i1 e1)
    else (true, (i1, e1))
  else (true, (i1, e1)).

(** The [forEach] of [validateForm]: every control is validated, in
    order, whatever the earlier ones gave. *)
Fixpoint validateInputs (ins : list Input) (e : Errors)
    : bool * (list Input * Errors) :=
  match ins with
  | [] => (true, ([], e))
  | i :: rest =>
      let '(ok, (i', e1)) := validateInput i e in
      let '(oks, (rest', e2)) := validateInputs rest e1 in
      (ok && oks, (i' :: rest', e2))
  end.

Definition validateForm (st : State) : bool * State :=
  let '(isValid, (ins, e)) := validateInputs (formInputs st) (errors st) in
  (isValid, set_inputs ins e st).

(** [animateInput(input, 'focus')] and [animateInput(input, 'blur')]. *)
Definition animateInput (focus : bool) (i : Input) : Input :=
  if focus then
    with_node (fun el => set_style borderColor (lit "var(--color-accent-blue)")
                           (set_style transform (lit "scale(1.02)") el)) i
  else
    let i1 := with_node (set_style transform (lit "scale(1)")) i in
    if negb (JSString.truthy (value i1)) then
      with_node (set_style borderColor (lit "transparent")) i1
    else i1.

Definition updateSubmitButton (text : jsstring) (isDisabled : bool) (st : State)
    : State :=
  match submitButton st with
  | Some b =>
      let label := match buttonText b with Some _ => Some text | None => None end in
      let bg :=
        if isDisabled then lit "linear-gradient(90deg, #666, #999)"
        else lit "linear-gradient(90deg, var(--color-accent-blue), var(--color-accent-green))" in
      set_button (Some (mkButton label isDisabled (<[background := bg]> (buttonStyle b)))) st
  | None => st
  end.

(** A method either returns or throws (a [TypeError] on a property of
    [null]); both carry the state reached. *)
Inductive Completion :=
| Normal (st : State)
| Throw (st : State).

Definition showSuccessMessage (st : State) : Completion :=
  let st1 := updateSubmitButton (lit "Message Sent!") true st in
  match submitButton st1 with
  | None => Throw st1
  | Some b =>
      let b' := mkButton (buttonText b) (disabled b)
                  (<[background := lit "linear-gradient(90deg, #00FF88, #00D4FF)"]>
                     (buttonStyle b)) in
      Normal (set_resetTimers (S (resetTimers st1)) (set_button (Some b') st1))
  end.

Definition showErrorMessage (message : jsstring) (st : State) : State :=
  mkState (contactForm st) (submitButton st) (formInputs st) (errors st)
    (isSubmitting st) (inFlight st) (resetTimers st)
    (notifications st ++ [message]) (consoleErrors st).

Definition console_error (st : State) : State :=
  mkState (contactForm st) (submitButton st) (formInputs st) (errors st)
    (isSubmitting st) (inFlight st) (resetTimers st)
    (notifications st) (S (consoleErrors st)).

(** The [forEach] of [resetForm]. *)
Fixpoint resetInputs (ins : list Input) (e : Errors) : list Input * Errors :=
  match ins with
  | [] => ([], e)
  | i :: rest =>
      let '(i1, e1) := clearInputError i e in
      let i2 := with_node (fun el => set_style borderColor (lit "transparent")
                                      (set_style transform (lit "scale(1)") el)) i1 in
      let '(rest', e2) := resetInputs rest e1 in
      (i2 :: rest', e2)
  end.

Definition resetForm (st : State) : Completion :=
  if contactForm st then
    let restored :=
      map (fun i => if inForm i then with_value (defaultValue i) i else i)
        (formInputs st) in
    let '(ins, e) := resetInputs restored (errors st) in
    Normal (set_inputs ins e st)
  else Throw st.

(** [handleFormSubmission] up to its [await]: [submitForm] has been called
    and its timer is running. *)
Definition handleFormSubmission (st : State) : State :=
  if isSubmitting st then st
  else
    let '(isValid, st1) := validateForm st in
    if negb isValid then st1
    else
      let st2 := set_submitting true st1 in
      let st3 := updateSubmitButton (lit "Sending...") true st2 in
      set_inFlight (S (inFlight st3)) st3.

(** The [try] block after the promise of [submitForm] has resolved. *)
Definition tryBlock (st : State) : Completion :=
  match showSuccessMessage st with
  | Normal st1 => resetForm st1
  | Throw st1 => Throw st1
  end.

Definition catchBlock (c : Completion) : State :=
  match c with
  | Normal st => st
  | Throw st =>
      showErrorMessage (lit "Failed to send message. Please try again.")
        (console_error st)
  end.

Definition finallyBlock (st : State) : State :=
  updateSubmitButton (lit "Send Message") false (set_submitting false st).

(** The rest of [handleFormSubmission], run when the timer of
    [submitForm] fires: the promise resolves (it has no way to reject) and
    the continuation runs to its end before any other handler. *)
Definition resume (st : State) : State :=
  match inFlight st with
  | O => st
  | S n => finallyBlock (catchBlock (tryBlock (set_inFlight n st)))
  end.

Definition update_input (k : nat) (f : Input → Errors → Input * Errors)
    (st : State) : State :=
  match formInputs st !! k with
  | Some i => let '(i', e) := f i (errors st) in
              set_inputs (<[k := i']> (formInputs st)) e st
  | None => st
  end.

(** What the page can do to the form. *)
Inductive Event :=
| Submit                              (* the form's [submit] event *)
| TimerFired                          (* the 1500 ms timer of [submitForm] *)
| Focus (k : nat)
| Blur (k : nat)
| Typed (k : nat) (v : jsstring)      (* the user edits, then [input] fires *)
| ButtonTimerFired.                   (* the 2000 ms timer of [showSuccessMessage] *)

Definition step (st : State) (ev : Event) : State :=
  match ev with
  | Submit => handleFormSubmission st
  | TimerFired => resume st
  | Focus k => update_input k (fun i e => (animateInput true i, e)) st
  | Blur k =>
      update_input k (fun i e => (validateInput (animateInput false i) e).2) st
  | Typed k v => update_input k (fun i e => clearInputError (with_value v i) e) st
  | ButtonTimerFired =>
      match resetTimers st with
      | O => st
      | S n => updateSubmitButton (lit "Send Message") false (set_resetTimers n st)
      end
  end.

Definition run (evs : list Event) (st : State) : State := foldl step st evs.

(** The state a completion carries. *)
Definition state_of (c : Completion) : State :=
  match c with Normal st => st | Throw st => st end.

(** The two fields that guard submission. *)
Definition guard (st : State) : bool * nat := (isSubmitting st, inFlight st).

(** The flag says whether a submission is waiting for its timer. *)
Definition consistent (st : State) : Prop :=
  inFlight st = if isSubmitting st then 1%nat else 0%nat.

(** The manager as its constructor leaves it on a page. *)
Definition constructor (form : bool) (button : option Button)
    (inputs : list Input) (e : Errors) (notes : list jsstring) : State :=
  mkState form button inputs e false 0 0 notes 0.

End FormManager.

(* ===================================================================== *)
(** ** Sample pages *)
(* ===================================================================== *)

Module Examples.

(** A page with one fade-in element, placed by the layout at a given
    distance from the top of a viewport 1000 pixels high. *)
Definition one_fade_element : Document :=
  {[ 0%nat := mkElement [lit "fade-in"] ∅ ∅ ]}.
Definition element_at (top : JSNumber.number) : Window :=
  mkWindow 0%float 1000%float 3000%float (fun _ _ => top).
Definition one_fade_manager : AnimationManager.State :=
  AnimationManager.mkState [0%nat] [] false.

(** A page with one decorative element carrying [data-speed], and the
    window scrolled to a given offset. *)
Definition floating_page (data_speed : jsstring) : Document :=
  {[ 0%nat := mkElement [lit "floating-element"]
                {[ AnimationManager.speed := data_speed ]} ∅ ]}.
Definition floating_manager : AnimationManager.State :=
  AnimationManager.mkState [] [0%nat] false.
Definition scrolled_to (y : JSNumber.number) : Window :=
  mkWindow y 1000%float 2000%float (fun _ _ => 0%float).

(** The theme manager on a first visit (nothing stored), and on a page
    whose store holds some text under the theme key. *)
Definition first_visit : ThemeManager.State :=
  ThemeManager.constructor ∅ (Some ThemeManager.moon) ∅.
Definition stored_theme (text : jsstring) : ThemeManager.State :=
  ThemeManager.constructor ∅ (Some ThemeManager.moon)
    {[ ThemeManager.storageKey := text ]}.

(** A form control with a given type, [required] attribute and value,
    and a page with a contact form around such controls. *)
Definition control (type : jsstring) (required : bool) (value : jsstring)
    : FormManager.Input :=
  FormManager.mkInput (mkElement [lit "form-input"] ∅ ∅) value [] type required
    1%nat true.
Definition submit_button : FormManager.Button :=
  FormManager.mkButton (Some (lit "Send Message")) false ∅.
Definition contact_page (button : option FormManager.Button)
    (inputs : list FormManager.Input) : FormManager.State :=
  FormManager.constructor true button inputs ∅ [].

End Examples.

(* ===================================================================== *)
(** ** modules/animations.js: the typewriter of [initTypewriterEffect] *)
(* ===================================================================== *)

Module Typewriter.

Definition texts : list jsstring :=
  [ lit "Creative Developer"; lit "Digital Artist";
    lit "UI/UX Designer"; lit "Problem Solver" ].

(** The three variables the closure [type] keeps, and the text of the
    [.hero-subtitle] element it writes.  The two indices are numbers that
    only ever hold small integers. *)
Record State := mkState {
  textIndex : Z;
  charIndex : Z;
  isDeleting : bool;
  textContent : jsstring
}.

(** [s.substring(0, n)]: a negative [n] counts as 0, one beyond the length
    as the length. *)
Definition substring0 (s : jsstring) (n : Z) : jsstring := take (Z.to_nat n) s.

(** [texts[textIndex]], [undefined] outside the array. *)
Definition currentTextOf (st : State) : option jsstring :=
  if textIndex st <? 0 then None else texts !! Z.to_nat (textIndex st).

(** One run of [type]: the new state and the delay given to [setTimeout];
    [None] when [currentText] is [undefined] and [substring] throws. *)
Definition type (st : State) : option (State * Z) :=
  match currentTextOf st with
  | None => None
  | Some currentText =>
      let '(content, ci) :=
        if isDeleting st
        then (substring0 currentText (charIndex st - 1), charIndex st - 1)
        else (substring0 currentText (charIndex st + 1), charIndex st + 1) in
      let typeSpeed := if isDeleting st then 50 else 100 in
      if negb (isDeleting st) && (ci =? Z.of_nat (length currentText)) then
        Some (mkState (textIndex st) ci true content, 2000)
      else if isDeleting st && (ci =? 0) then
        Some (mkState ((textIndex st + 1) mod Z.of_nat (length texts)) ci false
                content, 500)
      else Some (mkState (textIndex st) ci (isDeleting st) content, typeSpeed)
  end.

(** [n] runs of [type], each started by the timer of the one before. *)
Fixpoint ticks (n : nat) (st : State) : option State :=
  match n with
  | O => Some st
  | S n' =>
      match type st with
      | Some (st', _) => ticks n' st'
      | None => None
      end
  end.

(** The variables as [initTypewriterEffect] declares them, over a subtitle
    with some text. *)
Definition initial (originalText : jsstring) : State :=
  mkState 0 0 false originalText.

(** The indices are in range for the phrase being typed; while deleting
    there is something left to delete, while typing something left to
    type. *)
Definition inRange (st : State) : Prop :=
  ∃ currentText,
    currentTextOf st = Some currentText
    ∧ 0 ≤ charIndex st ≤ Z.of_nat (length currentText)
    ∧ (isDeleting st = true → 1 ≤ charIndex st)
    ∧ (isDeleting st = false → charIndex st < Z.of_nat (length currentText)).

(** The subtitle shows the first [charIndex] characters of the phrase. *)
Definition shown (st : State) : Prop :=
  ∃ currentText,
    currentTextOf st = Some currentText
    ∧ textContent st = take (Z.to_nat (charIndex st)) currentText.

End Typewriter.

(* ===================================================================== *)
(** ** modules/theme.js: the Konami code and rainbow mode *)
(* ===================================================================== *)

Module Konami.

Definition konamiSequence : list N := [38; 38; 40; 40; 37; 39; 37; 39; 66; 65]%N.

(** The key buffer, [document.body.style.animation], the number of
    [style#rainbow-animation] elements in the head, and the pending
    10 s timers of [triggerKonamiEasterEgg]. *)
Record State := mkState {
  konamiCode : list N;
  bodyAnimation : jsstring;
  rainbowStyles : nat;
  pendingResets : nat
}.

(** [Array.prototype.join]. *)
Fixpoint join (sep : jsstring) (parts : list jsstring) : jsstring :=
  match parts with
  | [] => []
  | [x] => x
  | x :: rest => x ++ sep ++ join sep rest
  end.

(** [toString] of an array of key codes: the codes are non-negative
    integers, printed in decimal and joined by commas. *)
Definition arrayToString (codes : list N) : jsstring :=
  join (lit ",") (map (fun k => JSNumber.decimal (Z.of_N k)) codes).

Definition activateRainbowMode (st : State) : State :=
  mkState (konamiCode st) (lit "rainbow 2s infinite")
    (match rainbowStyles st with O => 1%nat | n => n end) (pendingResets st).

Definition deactivateRainbowMode (st : State) : State :=
  mkState (konamiCode st) [] (rainbowStyles st) (pendingResets st).

Definition triggerKonamiEasterEgg (st : State) : State :=
  let st1 := activateRainbowMode st in
  mkState (konamiCode st1) (bodyAnimation st1) (rainbowStyles st1)
    (S (pendingResets st1)).

(** The [keydown] listener of [setupEasterEggs]. *)
Definition keydown (keyCode : N) (st : State) : State :=
  let pushed := konamiCode st ++ [keyCode] in
  let code :=
    if (length konamiSequence <? length pushed)%nat then tail pushed else pushed in
  let st1 := mkState code (bodyAnimation st) (rainbowStyles st) (pendingResets st) in
  if strict_eq (arrayToString code) (arrayToString konamiSequence)
  then triggerKonamiEasterEgg st1
  else st1.

(** The 10 s timer: [deactivateRainbowMode]. *)
Definition resetTimerFired (st : State) : State :=
  match pendingResets st with
  | O => st
  | S n =>
      deactivateRainbowMode
        (mkState (konamiCode st) (bodyAnimation st) (rainbowStyles st) n)
  end.

Definition typed (keys : list N) (st : State) : State :=
  foldl (fun s k => keydown k s) st keys.

(** The manager before any key: an empty buffer on a page with the given
    body animation and rainbow styles. *)
Definition fresh (animation : jsstring) (styles : nat) : State :=
  mkState [] animation styles 0.

Inductive Event :=
| Key (keyCode : N)
| ResetTimer.

Definition step (st : State) (ev : Event) : State :=
  match ev with
  | Key k => keydown k st
  | ResetTimer => resetTimerFired st
  end.

Definition run (evs : list Event) (st : State) : State := foldl step st evs.

(** The last ten of a list of keys (all of them when there are fewer). *)
Definition lastTen (keys : list N) : list N := drop (length keys - 10) keys.

End Konami.

(* ===================================================================== *)
(** ** modules/theme.js: [destroy], as far as the theme goes *)
(* ===================================================================== *)

Module ThemeLifecycle.
Import ThemeManager.

(** [destroy] resets the flag and applies the theme; what else it does
    (listeners, easter eggs, the two animation style elements) lies
    outside the theme state.  It does not write to the store. *)
Definition destroy (st : State) : State :=
  applyTheme (mkState true (rootStyle st) (themeToggle st) (localStorage st)).

(** A new manager on the page an old one leaves behind. *)
Definition reload (st : State) : State :=
  constructor (rootStyle st) (themeToggle st) (localStorage st).

End ThemeLifecycle.

(* ===================================================================== *)
(** ** modules/forms.js: [destroy] and [setupFileUpload] *)
(* ===================================================================== *)

Module FormLifecycle.
Import FormManager.

(** [destroy]: the fields are reset; the page keeps its error messages
    and notifications, and timers that are running keep running. *)
Definition destroy (st : State) : State :=
  mkState false None [] (errors st) false (inFlight st) (resetTimers st)
    (notifications st) (consoleErrors st).

(** What validation leaves alone in a control: everything but the
    element's classes and style. *)
Definition properties (i : Input)
    : jsstring * jsstring * jsstring * bool * nat * bool :=
  (value i, defaultValue i, type i, required i, parentNode i, inForm i).

(** The verdict of [validateInput] on a control; it does not depend on
    the messages shown. *)
Definition accepts (i : Input) : bool := (validateInput i ∅).1.

(** The messages shown under a parent node. *)
Definition messagesAt (e : Errors) (p : nat) : list jsstring :=
  default [] (e !! p).

(** Every parent node shows at most one error message. *)
Definition tidy (e : Errors) : Prop :=
  ∀ p msgs, e !! p = Some msgs → (length msgs ≤ 1)%nat.

End FormLifecycle.

Module FileUpload.
Import JSNumber FormManager.

Record File := mkFile {
  size : number;
  fileType : jsstring
}.

(** The options object; a property left out takes its default in the
    destructuring.  [onSelect] says whether a callback was given. *)
Record Options := mkOptions {
  maxSize : option number;
  allowedTypes : option (list jsstring);
  onSelect : bool
}.

(** [s.endsWith(suffix)] *)
Definition endsWith (suffix s : jsstring) : bool :=
  match startsWith (rev suffix) (rev s) with Some _ => true | None => false end.

(** [s.replace(pattern, '')] with a string pattern: the first occurrence
    goes. *)
Fixpoint removeFirst (pattern s : jsstring) : jsstring :=
  match startsWith pattern s with
  | Some rest => rest
  | None =>
      match s with
      | [] => []
      | c :: r => c :: removeFirst pattern r
      end
  end.

(** The callback given to [allowedTypes.some]. *)
Definition typeAllowedBy (file : File) (type : jsstring) : bool :=
  if endsWith (lit "/*") type then
    match startsWith (removeFirst (lit "/*") type) (fileType file) with
    | Some _ => true
    | None => false
    end
  else strict_eq (fileType file) type.

(** The [change] listener, for [e.target.files[0]] ([None] when no file
    was chosen): what becomes of the file input and the error messages,
    and the file handed to [onSelect], if any. *)
Definition onChange (options : Options) (file : option File)
    (fileInput : Input) (e : Errors) : (Input * Errors) * option File :=
  let maxSize := default (5 * 1024 * 1024)%float (maxSize options) in
  let allowedTypes := default [lit "image/*"] (allowedTypes options) in
  match file with
  | None => ((fileInput, e), None)
  | Some f =>
      if (maxSize <? size f)%float then
        (showInputError
           (lit "File size must be less than "
              ++ toString (maxSize / 1024 / 1024) ++ lit "MB") fileInput e,
         None)
      else
        let isValidType := existsb (typeAllowedBy f) allowedTypes in
        if negb isValidType then
          (showInputError (lit "File type not allowed") fileInput e, None)
        else ((fileInput, e), if onSelect options then Some f else None)
  end.

End FileUpload.

(* ===================================================================== *)
(** ** modules/performance.js and main.js: [debounce] and [throttle] *)
(* ===================================================================== *)

Module Timing.

Section Wrappers.
Context {A S : Type}.

(** The wrapped function: called with its arguments it acts on the state
    of the rest of the program. *)
Variable func : A → S → S.

(** The closure of [debounce]: its variable [timeout] ([None] for
    [undefined]) and, of the timers it has set, those that have neither
    fired nor been cleared, each with the arguments its [later] holds. *)
Record Debounced := mkDebounced {
  timeout : option nat;
  timers : gmap nat A
}.

Definition clearTimeout (id : option nat) (ts : gmap nat A) : gmap nat A :=
  match id with
  | Some i => delete i ts
  | None => ts
  end.

(** [executedFunction(...args)]; [id] is what [setTimeout] returns. *)
Definition executedFunction (args : A) (id : nat) (d : Debounced) : Debounced :=
  let ts := clearTimeout (timeout d) (timers d) in
  mkDebounced (Some id) (<[id := args]> ts).

(** Timer [id] fires, if it is still set, and [later] runs. *)
Definition later (id : nat) (ds : Debounced * S) : Debounced * S :=
  match timers ds.1 !! id with
  | None => ds
  | Some args =>
      let ts := clearTimeout (timeout ds.1) (delete id (timers ds.1)) in
      (mkDebounced (timeout ds.1) ts, func args ds.2)
  end.

Inductive DebounceEvent :=
| Invoke (args : A) (id : nat)
| Expire (id : nat).

Definition debounceStep (ds : Debounced * S) (ev : DebounceEvent)
    : Debounced * S :=
  match ev with
  | Invoke args id => (executedFunction args id ds.1, ds.2)
  | Expire id => later id ds
  end.

Definition debounce (s : S) : Debounced * S := (mkDebounced None ∅, s).

Definition debounceRun (evs : list DebounceEvent) (ds : Debounced * S)
    : Debounced * S :=
  foldl debounceStep ds evs.

(** The closure of [throttle]: its variable [inThrottle] ([undefined]
    reads as false) and the number of its timers still to fire. *)
Record Throttled := mkThrottled {
  inThrottle : bool;
  resets : nat
}.

Definition throttled (args : A) (ts : Throttled * S) : Throttled * S :=
  if negb (inThrottle ts.1) then
    let s := func args ts.2 in
    (mkThrottled true (Datatypes.S (resets ts.1)), s)
  else ts.

(** One of the timers fires: [inThrottle = false]. *)
Definition resetThrottle (ts : Throttled * S) : Throttled * S :=
  match resets ts.1 with
  | O => ts
  | Datatypes.S n => (mkThrottled false n, ts.2)
  end.

Inductive ThrottleEvent :=
| Call (args : A)
| Reset.

Definition throttleStep (ts : Throttled * S) (ev : ThrottleEvent)
    : Throttled * S :=
  match ev with
  | Call args => throttled args ts
  | Reset => resetThrottle ts
  end.

Definition throttle (s : S) : Throttled * S := (mkThrottled false 0, s).

Definition throttleRun (evs : list ThrottleEvent) (ts : Throttled * S)
    : Throttled * S :=
  foldl throttleStep ts evs.

End Wrappers.

Arguments Debounced : clear implicits.
Arguments DebounceEvent : clear implicits.
Arguments ThrottleEvent : clear implicits.

End Timing.

(* ===================================================================== *)
(** ** modules/navigation.js: class NavigationManager *)
(* ===================================================================== *)

Module NavigationManager.
Import JSNumber.

(** [navLinks] is the result of [querySelectorAll('.nav-link')];
    [scrollTimers] counts the timers of [scrollToSection] still to fire. *)
Record State := mkState {
  navLinks : list nat;
  sections : list jsstring;
  currentSection : jsstring;
  isScrolling : bool;
  scrollTimers : nat
}.

Definition active : jsstring := lit "active".
Definition section : jsstring := lit "section".
Definition home : jsstring := lit "home".

(** [offsetTop] and [offsetHeight] of the element
    [document.getElementById(id)] finds, if there is one: a matter of
    layout, which may depend on the classes set so far. *)
Abbreviation Layout := (Document → jsstring → option (number * number)).

(** The body of the [forEach] in [setActiveNavLink]. *)
Definition setActiveLink (sectionId : jsstring) (link : Element) : Element :=
  let link1 := FormManager.classList_remove active link in
  match dataset link1 !! section with
  | Some s => if strict_eq s sectionId then classList_add active link1 else link1
  | None => link1
  end.

Definition setActiveNavLink (sectionId : jsstring) (st : State)
    (doc : Document) : Document :=
  forEach (fun i => alter (setActiveLink sectionId) i) (navLinks st) doc.

Definition scrollToSection (layout : Layout) (sectionId : jsstring)
    (sd : State * Document) : State * Document :=
  let '(st, doc) := sd in
  match layout doc sectionId with
  | Some _ =>
      let doc1 := setActiveNavLink sectionId st doc in
      (mkState (navLinks st) (sections st) sectionId true (S (scrollTimers st)),
       doc1)
  | None => sd
  end.

(** The callback of the timer [scrollToSection] sets. *)
Definition scrollTimerFired (sd : State * Document) : State * Document :=
  let '(st, doc) := sd in
  match scrollTimers st with
  | O => sd
  | S n => (mkState (navLinks st) (sections st) (currentSection st) false n, doc)
  end.

(** [scrollPos >= top && scrollPos < top + height]. *)
Definition covers (box : option (number * number)) (scrollPos : number) : bool :=
  match box with
  | Some (top, height) =>
      (top <=? scrollPos)%float && (scrollPos <? top + height)%float
  | None => false
  end.

(** The body of the [forEach] in [updateActiveSection]. *)
Definition visitSection (layout : Layout) (scrollPos : number)
    (sd : State * Document) (sectionId : jsstring) : State * Document :=
  let '(st, doc) := sd in
  if covers (layout doc sectionId) scrollPos then
    if negb (strict_eq (currentSection st) sectionId) then
      let st1 :=
        mkState (navLinks st) (sections st) sectionId (isScrolling st)
          (scrollTimers st) in
      (st1, setActiveNavLink sectionId st1 doc)
    else sd
  else sd.

Definition updateActiveSection (layout : Layout) (w : Window)
    (sd : State * Document) : State * Document :=
  if isScrolling sd.1 then sd
  else
    let scrollPos := (scrollY w + 100)%float in
    foldl (visitSection layout scrollPos) sd (sections sd.1).

Definition scrollToTop (sd : State * Document) : State * Document :=
  let '(st, doc) := sd in
  let doc1 := setActiveNavLink home st doc in
  (mkState (navLinks st) (sections st) home (isScrolling st) (scrollTimers st),
   doc1).

Definition getCurrentSection (st : State) : jsstring := currentSection st.

(** The links keep their classes, and timers that are running keep
    running. *)
Definition destroy (sd : State * Document) : State * Document :=
  (mkState [] [] home false (scrollTimers sd.1), sd.2).

(** The constructor and [init], with the links the page has. *)
Definition constructor (links : list nat) (layout : Layout) (w : Window)
    (doc : Document) : State * Document :=
  let st :=
    mkState links
      [lit "home"; lit "about"; lit "skills"; lit "projects"; lit "contact"]
      home false 0 in
  updateActiveSection layout w (st, doc).

Inductive Event :=
| Scrolled (layout : Layout) (w : Window)       (* [updateActiveSection] *)
| Clicked (layout : Layout) (sectionId : jsstring)   (* [scrollToSection] *)
| TimerFired
| ToTop
| Destroyed.

Definition step (sd : State * Document) (ev : Event) : State * Document :=
  match ev with
  | Scrolled layout w => updateActiveSection layout w sd
  | Clicked layout sectionId => scrollToSection layout sectionId sd
  | TimerFired => scrollTimerFired sd
  | ToTop => scrollToTop sd
  | Destroyed => destroy sd
  end.

Definition run (evs : list Event) (sd : State * Document) : State * Document :=
  foldl step sd evs.



End NavigationManager.

(* ===================================================================== *)
(** ** main.js: the scroll listener of PortfolioApp *)
(* ===================================================================== *)

Module PortfolioApp.

(** The three modules the scroll listener uses, over the one document. *)
Record State := mkState {
  performance : PerformanceManager.State;
  animations : AnimationManager.State;
  navigation : NavigationManager.State;
  document : Document
}.

(** The page as a handler finds it when it runs. *)
Abbreviation Page := (Window * NavigationManager.Layout)%type.

(** The function given to [debounce] for the [scroll] event. *)
Definition onScroll (page : Page) (app : State) : State :=
  let doc1 :=
    PerformanceManager.updateProgressBar page.1 (performance app)
      (document app) in
  let '(anim, doc2) :=
    AnimationManager.handleScroll page.1 (animations app, doc1) in
  let '(nav, doc3) :=
    NavigationManager.updateActiveSection page.2 page.1 (navigation app, doc2) in
  mkState (performance app) anim nav doc3.

(** The wrapped function ignores its argument, the event, and reads the
    page when it runs. *)
Definition scrollHandler (_ : unit) (world : Page * State) : Page * State :=
  (world.1, onScroll world.1 world.2).

Inductive Event :=
| Scroll (page : Page) (id : nat)   (* the page has scrolled; [id] is the new timer *)
| Expire (id : nat)                 (* a timer of the debounced listener *)
| Frame.                            (* the callback of [requestAnimationFrame] *)

Definition step (s : Timing.Debounced unit * (Page * State)) (ev : Event)
    : Timing.Debounced unit * (Page * State) :=
  match ev with
  | Scroll page id => (Timing.executedFunction tt id s.1, (page, s.2.2))
  | Expire id => Timing.later scrollHandler id s
  | Frame =>
      let app := s.2.2 in
      let '(anim, doc) :=
        AnimationManager.animationFrame (animations app, document app) in
      (s.1, (s.2.1, mkState (performance app) anim (navigation app) doc))
  end.

Definition run (evs : list Event) (s : Timing.Debounced unit * (Page * State))
    : Timing.Debounced unit * (Page * State) :=
  foldl step s evs.

(** The listener as [setupEventListeners] leaves it. *)
Definition setupEventListeners (page : Page) (app : State)
    : Timing.Debounced unit * (Page * State) :=
  Timing.debounce (page, app).

End PortfolioApp.

(* ===================================================================== *)
(** ** modules/performance.js: [optimizeScrollPerformance] *)
(* ===================================================================== *)

Module ScrollPerformance.
Import PerformanceManager.

(** The function given to [throttle] for the [scroll] event; it reads the
    window when it runs. *)
Definition progressHandler (st : State) (_ : unit)
    (world : Window * Document) : Window * Document :=
  (world.1, updateProgressBar world.1 st world.2).

Inductive Event :=
| Scroll (w : Window)     (* the page has scrolled *)
| Reset.                  (* a 16 ms timer of the throttled listener *)

Definition step (st : State) (s : Timing.Throttled * (Window * Document))
    (ev : Event) : Timing.Throttled * (Window * Document) :=
  match ev with
  | Scroll w => Timing.throttled (progressHandler st) tt (s.1, (w, s.2.2))
  | Reset => Timing.resetThrottle s
  end.

Definition run (st : State) (evs : list Event)
    (s : Timing.Throttled * (Window * Document))
    : Timing.Throttled * (Window * Document) :=
  foldl (step st) s evs.


End ScrollPerformance.

(* ===================================================================== *)
(** ** modules/performance.js: [pauseAnimations] and [resumeAnimations] *)
(* ===================================================================== *)

Module AnimationPause.

Record State := mkState {
  isAnimationsPaused : bool
}.

Definition playStateProperty : jsstring := lit "--animation-play-state".
Definition animationPlayState : jsstring := lit "animationPlayState".
Definition paused : jsstring := lit "paused".
Definition running : jsstring := lit "running".

(** [document.querySelectorAll('*')]. *)
Definition allElements (doc : Document) : list nat := elements (dom doc).

(** The body of the [forEach] in [pauseAnimations]; [animated i] says
    whether the computed [animationName] of element [i] is other than
    'none', which the style sheets and the [animation] declarations
    decide, not the properties written here. *)
Definition pauseElement (animated : nat → bool) (i : nat) (doc : Document)
    : Document :=
  if animated i then alter (set_style animationPlayState paused) i doc
  else doc.

Definition pauseAnimations (animated : nat → bool) (body : nat)
    (sd : State * Document) : State * Document :=
  if isAnimationsPaused sd.1 then sd
  else
    let doc1 := alter (set_style playStateProperty paused) body sd.2 in
    (mkState true, forEach (pauseElement animated) (allElements doc1) doc1).

(** The body of the [forEach] in [resumeAnimations]; a property that is
    not set reads as the empty string. *)
Definition resumeElement (el : Element) : Element :=
  match style el !! animationPlayState with
  | Some v =>
      if JSString.strict_eq v paused then set_style animationPlayState running el
      else el
  | None => el
  end.

Definition resumeAnimations (body : nat) (sd : State * Document)
    : State * Document :=
  if negb (isAnimationsPaused sd.1) then sd
  else
    let doc1 := alter (set_style playStateProperty running) body sd.2 in
    (mkState false,
     forEach (fun i => alter resumeElement i) (allElements doc1) doc1).

(** [cleanup], as far as this flag goes: it is reset, the page is left as
    it is. *)
Definition cleanup (sd : State * Document) : State * Document :=
  (mkState false, sd.2).

(** The [visibilitychange] listener of main.js. *)
Definition visibilityChange (animated : nat → bool) (body : nat)
    (hidden : bool) (sd : State * Document) : State * Document :=
  if hidden then pauseAnimations animated body sd
  else resumeAnimations body sd.

End AnimationPause.

(* ===================================================================== *)
(** ** modules/animations.js: [addFadeInElement] and [destroy] *)
(* ===================================================================== *)

Module AnimationLifecycle.
Import AnimationManager.

(** The manager with what [addFadeInElement] depends on.  [fadeElements]
    is the NodeList of [querySelectorAll], which has no [push], until
    [destroy] puts an empty array in its place; [observer] holds the
    targets the IntersectionObserver observes, and is [None] once
    [destroy] has set the field to [null]. *)
Record Fields := mkFields {
  manager : State;
  fadeIsArray : bool;
  observer : option (list nat)
}.

Definition fadeIn : jsstring := lit "fade-in".

(** How a call ends: it returns, or a TypeError leaves it; either way
    with what it has written so far. *)
Inductive Completion :=
| Normal (r : Fields * Document)
| TypeError (r : Fields * Document).

Definition result (c : Completion) : Fields * Document :=
  match c with Normal r => r | TypeError r => r end.

(** [observer.observe(target)]: a target already observed stays. *)
Definition observe (i : nat) (targets : list nat) : list nat :=
  if bool_decide (i ∈ targets) then targets else targets ++ [i].

(** The constructor's [init], as far as these fields and the document
    go. *)
Definition init (fade floating : list nat) (doc : Document)
    : Fields * Document :=
  let st := mkState fade floating false in
  (mkFields st false (Some (foldl (fun ts i => observe i ts) [] fade)),
   setupFloatingElements st doc).

(** [addFadeInElement(element)]; [None] is a falsy argument, and a
    reference is to an element of the store. *)
Definition addFadeInElement (element : option nat) (fd : Fields * Document)
    : Completion :=
  match element with
  | None => Normal fd
  | Some i =>
      match fd.2 !! i with
      | None => Normal fd
      | Some el =>
          if negb (contains fadeIn el) then
            let doc1 := <[i := classList_add fadeIn el]> fd.2 in
            if fadeIsArray fd.1 then
              let st := manager fd.1 in
              let st1 :=
                mkState (fadeElements st ++ [i]) (floatingElements st)
                  (isAnimating st) in
              match observer fd.1 with
              | Some targets =>
                  Normal (mkFields st1 true (Some (observe i targets)), doc1)
              | None => TypeError (mkFields st1 true None, doc1)
              end
            else TypeError (fd.1, doc1)
          else Normal fd
      end
  end.

Definition destroy (fd : Fields * Document) : Fields * Document :=
  (mkFields (mkState [] [] false) true None, fd.2).

Inductive Event :=
| Add (element : option nat)
| Destroy.

Definition step (fd : Fields * Document) (ev : Event) : Fields * Document :=
  match ev with
  | Add element => result (addFadeInElement element fd)
  | Destroy => destroy fd
  end.

Definition run (evs : list Event) (fd : Fields * Document) : Fields * Document :=
  foldl step fd evs.

End AnimationLifecycle.

(* ===================================================================== *)
(** ** More sample pages *)
(* ===================================================================== *)

Module Samples.

(** Two navigation links, the first one active, over two sections that
    follow each other from the top of the page. *)
Definition nav_page : Document :=
  {[ 10%nat := mkElement [lit "nav-link"; lit "active"]
                 {[ NavigationManager.section := lit "home" ]} ∅;
     11%nat := mkElement [lit "nav-link"]
                 {[ NavigationManager.section := lit "about" ]} ∅ ]}.
Definition nav_boxes (id : jsstring)
    : option (JSNumber.number * JSNumber.number) :=
  if JSString.strict_eq id (lit "home") then Some (0%float, 800%float)
  else if JSString.strict_eq id (lit "about") then Some (800%float, 600%float)
  else None.
Definition nav_layout : NavigationManager.Layout := fun _ => nav_boxes.
Definition scrolled_to_nav (y : JSNumber.number) : Window :=
  mkWindow y 1000%float 1400%float (fun _ _ => 0%float).
Definition nav_manager : NavigationManager.State :=
  NavigationManager.mkState [10%nat; 11%nat] [lit "home"; lit "about"]
    (lit "home") false 0.


(** A page whose body (element 1) is not animated and whose element 2
    is. *)
Definition animated_page : Document :=
  {[ 1%nat := mkElement [] ∅ ∅; 2%nat := mkElement [lit "spinner"] ∅ ∅ ]}.
Definition spinner_only (i : nat) : bool := bool_decide (i = 2%nat).

End Samples.

(* ===================================================================== *)
(** * Properties *)
(* ===================================================================== *)

(** ** The fade-in flag *)

Section FadeIn.
Import AnimationManager.

Lemma contains_add token el : contains token (classList_add token el) = true.
Proof.
  unfold classList_add. destruct (contains token el) eqn:E; [exact E|].
  unfold contains; simpl. apply bool_decide_eq_true. set_solver.
Qed.

Lemma classList_add_present token el :
  contains token el = true → classList_add token el = el.
Proof. unfold classList_add. by intros ->. Qed.

Lemma checkElement_visible w i doc :
  isVisibleIn doc i → checkElement w i doc = doc.
Proof.
  intros (el & Hel & Hv). unfold checkElement. by rewrite Hel, Hv.
Qed.

(** A step of the loop leaves every element that carries the class as it
    is, whichever element the step is for. *)
Lemma checkElement_keeps w i j doc :
  isVisibleIn doc j → checkElement w i doc !! j = doc !! j.
Proof.
  intros Hj. destruct (decide (i = j)) as [->|Hne].
  - by rewrite checkElement_visible.
  - unfold checkElement. destruct (doc !! i) as [el|]; [|done].
    destruct (negb (contains visible el)); [|done].
    destruct (rect_top w doc i <? innerHeight w * 0.8)%float; [|done].
    by rewrite lookup_insert_ne.
Qed.

Lemma checkElement_dom w i (doc : Document) :
  dom (checkElement w i doc) = dom doc.
Proof.
  unfold checkElement. destruct (doc !! i) as [el|] eqn:E; [|done].
  destruct (negb (contains visible el)); [|done].
  destruct (rect_top w doc i <? innerHeight w * 0.8)%float; [|done].
  rewrite dom_insert_L. apply elem_of_dom_2 in E. set_solver.
Qed.

Lemma isVisibleIn_keeps (doc doc' : Document) j :
  doc' !! j = doc !! j → isVisibleIn doc j → isVisibleIn doc' j.
Proof. intros E (el & Hel & Hv). exists el. by rewrite E. Qed.

Lemma forEach_check_keeps w nodes j : ∀ doc,
  isVisibleIn doc j → forEach (checkElement w) nodes doc !! j = doc !! j.
Proof.
  induction nodes as [|i nodes IH]; intros doc Hj; [done|].
  unfold forEach in *; simpl.
  rewrite IH.
  - by apply checkElement_keeps.
  - eapply isVisibleIn_keeps; [|exact Hj]. by apply checkElement_keeps.
Qed.

Lemma forEach_check_dom w nodes : ∀ doc : Document,
  dom (forEach (checkElement w) nodes doc) = dom doc.
Proof.
  induction nodes as [|i nodes IH]; intros doc; [done|].
  unfold forEach in *; simpl. by rewrite IH, checkElement_dom.
Qed.

(** When every listed element already carries the class, the whole pass
    changes nothing. *)
Lemma forEach_check_all_visible w nodes : ∀ doc,
  (∀ i, i ∈ nodes → isVisibleIn doc i) →
  forEach (checkElement w) nodes doc = doc.
Proof.
  induction nodes as [|i nodes IH]; intros doc Hall; [done|].
  unfold forEach in *; simpl.
  rewrite checkElement_visible by (apply Hall; set_solver).
  apply IH. intros k Hk. apply Hall. set_solver.
Qed.

Lemma checkElement_marks w i doc el :
  doc !! i = Some el →
  (rect_top w doc i <? innerHeight w * 0.8)%float = true →
  isVisibleIn (checkElement w i doc) i.
Proof.
  intros Hel Htop. unfold checkElement. rewrite Hel.
  destruct (contains visible el) eqn:Hv; simpl.
  - by exists el.
  - rewrite Htop. exists (classList_add visible el).
    split; [by rewrite lookup_insert_eq | apply contains_add].
Qed.

Lemma forEach_check_marks w nodes i : ∀ doc,
  i ∈ nodes → is_Some (doc !! i) →
  (∀ d, (rect_top w d i <? innerHeight w * 0.8)%float = true) →
  isVisibleIn (forEach (checkElement w) nodes doc) i.
Proof.
  induction nodes as [|a nodes IH]; intros doc Hin [el Hel] Htop.
  - by apply elem_of_nil in Hin.
  - unfold forEach in *; simpl.
    destruct (decide (a = i)) as [->|Hne].
    + assert (Hv : isVisibleIn (checkElement w i doc) i)
        by (eapply checkElement_marks; eauto).
      eapply isVisibleIn_keeps; [|exact Hv]. by apply forEach_check_keeps.
    + apply IH; [set_solver| |done].
      apply elem_of_dom. rewrite checkElement_dom. apply elem_of_dom. eauto.
Qed.

(** The parallax pass writes [style.transform] only. *)
Lemma parallax_classes y nodes j : ∀ doc : Document,
  classList <$> forEach (fun i => alter (parallaxElement y) i) nodes doc !! j
  = classList <$> doc !! j.
Proof.
  induction nodes as [|i nodes IH]; intros doc; [done|].
  unfold forEach in *; simpl. rewrite IH.
  destruct (decide (i = j)) as [->|Hne].
  - rewrite lookup_alter_eq. by destruct (doc !! j).
  - by rewrite lookup_alter_ne.
Qed.

Lemma isVisibleIn_classes (doc doc' : Document) j :
  classList <$> doc' !! j = classList <$> doc !! j →
  isVisibleIn doc j → isVisibleIn doc' j.
Proof.
  intros E (el & Hel & Hv). rewrite Hel in E.
  destruct (doc' !! j) as [el'|] eqn:E'; [|done]. simpl in E.
  exists el'. split; [done|]. unfold contains in *. by injection E as ->.
Qed.

Lemma observerCallback_keeps entries j : ∀ doc,
  isVisibleIn doc j → observerCallback entries doc !! j = doc !! j.
Proof.
  induction entries as [|[i b] entries IH]; intros doc Hj; [done|].
  unfold observerCallback in *. simpl.
  assert (E : (if b then alter (classList_add visible) i doc else doc) !! j
              = doc !! j).
  { destruct b; [|done]. destruct (decide (i = j)) as [->|Hne].
    - destruct Hj as (el & Hel & Hv).
      rewrite lookup_alter_eq, Hel. simpl.
      by rewrite (classList_add_present _ _ Hv).
    - by rewrite lookup_alter_ne. }
  rewrite IH; [exact E|]. by eapply isVisibleIn_keeps.
Qed.

Lemma step_classes sd ev j :
  isVisibleIn sd.2 j →
  classList <$> (step sd ev).2 !! j = classList <$> sd.2 !! j.
Proof.
  destruct sd as [st doc]; simpl. intros Hj.
  destruct ev as [w| |entries]; simpl; [|done|].
  - destruct (isAnimating st); [done|].
    unfold checkForNewAnimations, updateParallax; simpl.
    rewrite forEach_check_keeps.
    + apply parallax_classes.
    + eapply isVisibleIn_classes; [apply parallax_classes | exact Hj].
  - by rewrite observerCallback_keeps.
Qed.

Lemma run_classes evs j : ∀ sd,
  isVisibleIn sd.2 j →
  classList <$> (run evs sd).2 !! j = classList <$> sd.2 !! j.
Proof.
  induction evs as [|ev evs IH]; intros sd Hj; [done|].
  unfold run in *; simpl. rewrite IH.
  - by apply step_classes.
  - eapply isVisibleIn_classes; [by apply step_classes | exact Hj].
Qed.

End FadeIn.

Section FadeInClaim.
Import AnimationManager Examples.

(** C1.  A pass of [checkForNewAnimations] marks a fade-in element whose
    bounding-box top is below 80% of the viewport height, and the mark is
    permanent: for an element that carries [visible], marking it again
    changes nothing, a pass leaves the element and the set of elements of
    the document as they are (and the whole document when all listed
    elements are visible), and after any sequence of scroll events,
    animation frames and observer callbacks the element still carries
    [visible], with the class list and the manager's node list unchanged. *)
Theorem fade_in_visible_is_permanent (st : State) (i : nat) :
  (∀ w doc el,
      doc !! i = Some el →
      (rect_top w doc i <? innerHeight w * 0.8)%float = true →
      isVisibleIn (checkElement w i doc) i) ∧
  (∀ w doc,
      i ∈ fadeElements st → is_Some (doc !! i) →
      (∀ d, (rect_top w d i <? innerHeight w * 0.8)%float = true) →
      isVisibleIn (checkForNewAnimations w st doc) i) ∧
  (∀ doc,
      isVisibleIn doc i →
      (∀ w, checkElement w i doc = doc) ∧
      (∀ w, checkForNewAnimations w st doc !! i = doc !! i
            ∧ dom (checkForNewAnimations w st doc) = dom doc) ∧
      (∀ w, (∀ k, k ∈ fadeElements st → isVisibleIn doc k) →
            checkForNewAnimations w st doc = doc) ∧
      (∀ ws, foldl (fun d w => checkForNewAnimations w st d) doc ws !! i
             = doc !! i) ∧
      (∀ evs, isVisibleIn (run evs (st, doc)).2 i
              ∧ classList <$> (run evs (st, doc)).2 !! i = classList <$> doc !! i
              ∧ fadeElements (run evs (st, doc)).1 = fadeElements st)).
Proof.
  split; [|split].
  - intros w doc el. apply checkElement_marks.
  - intros w doc. apply forEach_check_marks.
  - intros doc Hv. repeat split.
    + intros w. by apply checkElement_visible.
    + by apply forEach_check_keeps.
    + apply forEach_check_dom.
    + intros w Hall. by apply forEach_check_all_visible.
    + intros ws. revert doc Hv.
      induction ws as [|w ws IH]; intros doc Hv; [done|]. simpl.
      rewrite IH.
      * by apply forEach_check_keeps.
      * eapply isVisibleIn_keeps; [|exact Hv]. by apply forEach_check_keeps.
    + eapply isVisibleIn_classes; [|exact Hv]. by apply (run_classes evs i (st, doc)).
    + by apply (run_classes evs i (st, doc)).
    + clear Hv. revert st doc.
      induction evs as [|ev evs IH]; intros st doc; [done|].
      unfold run in *. simpl.
      destruct ev as [w| |entries]; simpl.
      * destruct (isAnimating st); rewrite IH; done.
      * by rewrite IH.
      * by rewrite IH.
Qed.

Lemma fade_in_visible_is_permanent_witness :
  isVisibleIn
    (run [Scroll (element_at 5000); Frame; Intersect [(0%nat, false)];
          Scroll (element_at 5000)]
       (one_fade_manager,
        checkElement (element_at 500) 0 one_fade_element)).2 0.
Proof.
  destruct (fade_in_visible_is_permanent one_fade_manager 0)
    as (Hmark & _ & Hkeep).
  apply Hkeep.
  apply (Hmark (element_at 500) one_fade_element
           (mkElement [lit "fade-in"] ∅ ∅)); reflexivity.
Defined.

End FadeInClaim.

(** ** The parallax transform *)

Section Parallax.
Import JSNumber AnimationManager.

Lemma parallaxSpeed_dataset el el' :
  dataset el' !! speed = dataset el !! speed → parallaxSpeed el' = parallaxSpeed el.
Proof. unfold parallaxSpeed, parsedSpeed. by intros ->. Qed.


Lemma parallaxSpeed_falsy el :
  truthy (parsedSpeed el) = false → parallaxSpeed el = 0.1%float.
Proof. unfold parallaxSpeed. by intros ->. Qed.

(** The pass gives every listed element the transform computed from the
    scroll offset and its own [data-speed], and touches nothing else of
    it. *)
Lemma parallax_lookup y nodes i : ∀ (doc : Document) el,
  doc !! i = Some el →
  ∃ el', forEach (fun k => alter (parallaxElement y) k) nodes doc !! i = Some el'
    ∧ dataset el' = dataset el
    ∧ classList el' = classList el
    ∧ (i ∈ nodes
       ∨ style el !! transform
         = Some (transformText (y * parallaxSpeed el) (y * 0.1)) →
       style el' !! transform
       = Some (transformText (y * parallaxSpeed el) (y * 0.1))).
Proof.
  induction nodes as [|a nodes IH]; intros doc el Hel.
  - exists el. repeat split; try done.
    intros [Hin|H]; [by apply elem_of_nil in Hin | done].
  - unfold forEach in *. simpl.
    destruct (decide (a = i)) as [->|Hne].
    + destruct (IH (alter (parallaxElement y) i doc) (parallaxElement y el))
        as (el' & Hl & Hd & Hc & Ht).
      { by rewrite lookup_alter_eq, Hel. }
      exists el'. repeat split; try done.
      intros _.
      rewrite (parallaxSpeed_dataset el (parallaxElement y el)) in Ht by done.
      apply Ht. right. unfold parallaxElement, set_style. simpl.
      by rewrite lookup_insert_eq.
    + destruct (IH (alter (parallaxElement y) a doc) el)
        as (el' & Hl & Hd & Hc & Ht).
      { by rewrite lookup_alter_ne. }
      exists el'. repeat split; try done.
      intros [Hin|H]; apply Ht; [left|by right].
      apply elem_of_cons in Hin as [->|Hin]; done.
Qed.

End Parallax.

Section ParallaxClaims.
Import JSNumber AnimationManager Examples.




End ParallaxClaims.

Section ParallaxDefault.
Import JSNumber AnimationManager Examples.

Lemma falsy_speed el :
  dataset el !! speed = None
  ∨ is_zero (parsedSpeed el) = true
  ∨ is_nan (parsedSpeed el) = true →
  truthy (parsedSpeed el) = false.
Proof.
  unfold truthy. intros [Habs|[Hz|Hn]].
  - unfold parsedSpeed. rewrite Habs. reflexivity.
  - by rewrite Hz.
  - rewrite Hn. by destruct (is_zero _).
Qed.

(** C10.  The speed used by [updateParallax] is the default 0.1 when the
    element has no [data-speed], and also whenever the attribute parses to
    zero or to NaN: the transform is then the one for speed 0.1.
    [setupFloatingElements] does not repair this: a non-empty attribute
    such as "0" is written back as it is. *)
Theorem parallax_speed_falls_back_to_default (el : Element) :
  dataset el !! speed = None
  ∨ is_zero (parsedSpeed el) = true
  ∨ is_nan (parsedSpeed el) = true →
  parallaxSpeed el = 0.1%float
  ∧ (∀ w st (doc : Document) i,
        i ∈ floatingElements st → doc !! i = Some el →
        ∃ el', updateParallax w st doc !! i = Some el'
               ∧ style el' !! transform
                 = Some (transformText (scrollY w * 0.1) (scrollY w * 0.1)))
  ∧ (∀ s (doc : Document) i,
        dataset el !! speed = Some s → s ≠ [] → doc !! i = Some el →
        ∃ el', setupFloatingElement i doc !! i = Some el'
               ∧ dataset el' !! speed = Some s
               ∧ parallaxSpeed el' = 0.1%float).
Proof.
  intros H. pose proof (parallaxSpeed_falsy el (falsy_speed el H)) as Hs.
  split; [exact Hs|]. split.
  - intros w st doc i Hin Hel.
    destruct (parallax_lookup (scrollY w) (floatingElements st) i doc el Hel)
      as (el' & Hl & _ & _ & Ht).
    exists el'. split; [exact Hl|]. rewrite <- Hs at 1. by apply Ht; left.
  - intros s doc i Hd Hne Hel. unfold setupFloatingElement.
    rewrite lookup_alter_eq, Hel. simpl. eexists. split; [reflexivity|].
    rewrite Hd. destruct s as [|c s]; [done|]. simpl.
    split; [by rewrite lookup_insert_eq|].
    rewrite <- Hs. apply parallaxSpeed_dataset. simpl.
    by rewrite lookup_insert_eq.
Qed.

Lemma parallax_speed_falls_back_to_default_witness :
  parsedSpeed (mkElement [] {[ speed := lit "0" ]} ∅) = 0%float
  ∧ parallaxSpeed (mkElement [] {[ speed := lit "0" ]} ∅) = 0.1%float.
Proof.
  split; [reflexivity|].
  apply (parallax_speed_falls_back_to_default
           (mkElement [] {[ speed := lit "0" ]} ∅)).
  right; left. reflexivity.
Defined.

(** The other falsy cases: a text that is no number, a negative zero, and
    no attribute at all; and a proper speed for comparison. *)
Example parallax_speed_samples :
  parallaxSpeed (mkElement [] {[ speed := lit "fast" ]} ∅) = 0.1%float
  ∧ parallaxSpeed (mkElement [] {[ speed := lit "-0.0" ]} ∅) = 0.1%float
  ∧ parallaxSpeed (mkElement [] ∅ ∅) = 0.1%float
  ∧ parallaxSpeed (mkElement [] {[ speed := lit "0.25" ]} ∅) = 0.25%float
  ∧ parallaxSpeed (mkElement [] {[ speed := lit "2px" ]} ∅) = 2%float.
Proof. repeat split; reflexivity. Qed.

End ParallaxDefault.

(** ** The scroll progress bar *)

Section ProgressBar.
Import JSNumber PerformanceManager Examples.



End ProgressBar.

(** ** The theme preference *)

Section Theme.
Import ThemeManager.

Lemma setProperties_cons k v ps m :
  setProperties ((k, v) :: ps) m = setProperties ps (<[k := v]> m).
Proof. reflexivity. Qed.

Lemma setProperties_other ps : ∀ m k,
  k ∉ ps.*1 → setProperties ps m !! k = m !! k.
Proof.
  induction ps as [|[a v] ps IH]; intros m k Hk; [done|].
  rewrite setProperties_cons, IH by set_solver.
  apply lookup_insert_ne. set_solver.
Qed.

(** On the names it sets, the outcome of a run of [setProperty] calls does
    not depend on the style it started from. *)
Lemma setProperties_own ps : ∀ m m' k,
  k ∈ ps.*1 → setProperties ps m !! k = setProperties ps m' !! k.
Proof.
  induction ps as [|[a v] ps IH]; intros m m' k Hk.
  - by apply elem_of_nil in Hk.
  - rewrite !setProperties_cons.
    destruct (decide (k ∈ ps.*1)) as [Hin|Hout]; [by apply IH|].
    rewrite !setProperties_other by done.
    assert (k = a) as -> by set_solver.
    by rewrite !lookup_insert_eq.
Qed.

Lemma setProperties_lookup ps : ∀ m k v,
  NoDup ps.*1 → (k, v) ∈ ps → setProperties ps m !! k = Some v.
Proof.
  induction ps as [|[a x] ps IH]; intros m k v Hnd Hin.
  - by apply elem_of_nil in Hin.
  - rewrite setProperties_cons. simpl in Hnd. apply NoDup_cons in Hnd as [Ha Hnd].
    apply elem_of_cons in Hin as [[= -> ->]|Hin].
    + rewrite setProperties_other by done. by rewrite lookup_insert_eq.
    + by apply IH.
Qed.

(** Applying one palette over another leaves the first alone: the two set
    the same names. *)
Lemma setProperties_over ps qs m :
  ps.*1 = qs.*1 →
  setProperties ps (setProperties qs m) = setProperties ps m.
Proof.
  intros Hk. apply map_eq. intros k.
  destruct (decide (k ∈ ps.*1)) as [Hin|Hout].
  - by apply setProperties_own.
  - rewrite !setProperties_other; try done. by rewrite <- Hk.
Qed.

Lemma palette_names b b' : (palette b).*1 = (palette b').*1.
Proof. by destruct b, b'. Qed.

Lemma palette_NoDup b : NoDup (palette b).*1.
Proof. destruct b; apply (bool_decide_unpack _); vm_compute; exact I. Qed.

Lemma toggleTheme_twice st :
  toggleTheme (toggleTheme st) = saveThemePreference (applyTheme st).
Proof.
  destruct st as [f root toggle storage].
  unfold toggleTheme, saveThemePreference, applyTheme. simpl.
  rewrite negb_involutive.
  rewrite (setProperties_over _ _ _ (palette_names f (negb f))).
  rewrite insert_insert_eq.
  by destruct toggle.
Qed.

Lemma applyTheme_twice st : applyTheme (applyTheme st) = applyTheme st.
Proof.
  destruct st as [f root toggle storage]. unfold applyTheme. simpl.
  rewrite (setProperties_over _ _ _ (palette_names f f)).
  by destruct toggle.
Qed.

Lemma inSync_after st : inSync (saveThemePreference (applyTheme st)).
Proof.
  split.
  - destruct st as [f root toggle storage].
    unfold saveThemePreference, applyTheme. simpl.
    rewrite (setProperties_over _ _ _ (palette_names f f)).
    by destruct toggle.
  - destruct st as [f root toggle storage].
    unfold saveThemePreference, applyTheme. simpl.
    by rewrite insert_insert_eq.
Qed.

End Theme.

Section ThemeClaims.
Import ThemeManager Examples.

(** C4, as amended.  After the constructor has run [loadThemePreference],
    the theme is dark exactly when the store holds nothing under the theme
    key, or the empty string, or "dark"; any other stored string gives the
    light theme, "light" and unrecognised text alike, and the light palette
    is then applied. *)
Theorem theme_after_load (root : gmap jsstring jsstring)
    (toggle : option jsstring) (storage : gmap jsstring jsstring) :
  let st := constructor root toggle storage in
  (isDarkTheme st = true ↔
     storage !! storageKey = None
     ∨ storage !! storageKey = Some []
     ∨ storage !! storageKey = Some dark)
  ∧ (∀ saved, storage !! storageKey = Some saved → saved ≠ [] → saved ≠ dark →
       isDarkTheme st = false
       ∧ ∀ name value, (name, value) ∈ lightPalette →
           rootStyle st !! name = Some value)
  ∧ localStorage st = storage.
Proof.
  unfold constructor, loadThemePreference. simpl.
  destruct (storage !! storageKey) as [saved|] eqn:E; simpl.
  - destruct saved as [|c saved]; simpl.
    + split; [|split; [|done]].
      * split; [auto|done].
      * intros ? [= <-] Hne. by destruct Hne.
    + split; [|split; [|done]].
      * unfold strict_eq. rewrite bool_decide_eq_true. split.
        -- intros ->. auto.
        -- intros [H|[H|H]]; [discriminate|discriminate|congruence].
      * intros ? [= <-] _ Hnd.
        assert (Hf : strict_eq (c :: saved) dark = false)
          by (by apply bool_decide_eq_false).
        rewrite Hf. split; [done|].
        intros name value Hin.
        apply setProperties_lookup; [apply (palette_NoDup false) | exact Hin].
  - split; [|split; [|done]].
    + split; [auto|done].
    + intros ? [=].
Qed.

Lemma theme_after_load_witness :
  isDarkTheme (stored_theme light) = false
  ∧ rootStyle (stored_theme light) !! lit "--color-primary" = Some (lit "#FFFFFF").
Proof.
  destruct (theme_after_load ∅ (Some moon) {[ storageKey := light ]})
    as (_ & Hlight & _).
  destruct (Hlight light) as [Hflag Hpal];
    [reflexivity | vm_compute; discriminate | vm_compute; discriminate |].
  split; [exact Hflag|]. apply Hpal. apply list_elem_of_here.
Defined.

(** C4, as stated, fails: with the unrecognised text "blue" in the store
    the manager comes up with the light theme, not the default dark one. *)
Lemma theme_unrecognised_counterexample :
  stored_theme (lit "blue") = ThemeManager.constructor ∅ (Some moon)
                                {[ storageKey := lit "blue" ]}
  ∧ lit "blue" ≠ light
  ∧ isDarkTheme (stored_theme (lit "blue")) = false
  ∧ getCurrentTheme (stored_theme (lit "blue")) = light
  ∧ themeToggle (stored_theme (lit "blue")) = Some sun.
Proof. repeat split; try reflexivity. vm_compute. discriminate. Qed.

(** C5, as amended.  Two calls of [toggleTheme] restore the flag, and
    leave the palette, the toggle icon and the stored string as
    [applyTheme] and [saveThemePreference] make them for that flag.  They
    therefore restore the whole state whenever palette, icon and stored
    string agreed with the flag beforehand, which is so after any
    [toggleTheme]; otherwise (as on a first visit, with nothing stored)
    they bring them into agreement with the flag. *)
Theorem toggle_twice_restores (st : State) :
  inSync st →
  toggleTheme (toggleTheme st) = st
  ∧ isDarkTheme (toggleTheme (toggleTheme st)) = isDarkTheme st
  ∧ appliedPalette (toggleTheme (toggleTheme st)) = appliedPalette st
  ∧ localStorage (toggleTheme (toggleTheme st)) !! storageKey
    = localStorage st !! storageKey
  ∧ localStorage st !! storageKey = Some (getCurrentTheme st)
  ∧ inSync (toggleTheme st)
  ∧ ∀ st0, isDarkTheme (toggleTheme (toggleTheme st0)) = isDarkTheme st0
           ∧ inSync (toggleTheme st0)
           ∧ toggleTheme (toggleTheme st0) = saveThemePreference (applyTheme st0).
Proof.
  intros [Ha Hs].
  assert (E : toggleTheme (toggleTheme st) = st)
    by (by rewrite toggleTheme_twice, Ha, Hs).
  split; [exact E|]. rewrite E.
  split; [done|]. split; [done|]. split; [done|].
  split.
  { rewrite <- Hs at 1. unfold saveThemePreference, getCurrentTheme. simpl.
    by rewrite lookup_insert_eq. }
  split; [unfold toggleTheme; apply inSync_after|].
  intros st0. split; [|split].
  - rewrite toggleTheme_twice. by destruct st0.
  - unfold toggleTheme. apply inSync_after.
  - apply toggleTheme_twice.
Qed.

Lemma toggle_twice_restores_witness :
  toggleTheme (toggleTheme (toggleTheme first_visit)) = toggleTheme first_visit.
Proof.
  apply (toggle_twice_restores (toggleTheme first_visit)).
  split; vm_compute; reflexivity.
Defined.

(** C5, as stated, fails on a first visit: nothing is stored under the
    theme key and no palette variable is set inline, and after two toggles
    the store holds "dark" and the dark palette is set. *)
Lemma toggle_twice_first_visit_counterexample :
  localStorage first_visit !! storageKey = None
  ∧ localStorage (toggleTheme (toggleTheme first_visit)) !! storageKey = Some dark
  ∧ rootStyle first_visit !! lit "--color-primary" = None
  ∧ rootStyle (toggleTheme (toggleTheme first_visit)) !! lit "--color-primary"
    = Some (lit "#0A0A0A")
  ∧ toggleTheme (toggleTheme first_visit) ≠ first_visit.
Proof.
  repeat split; try (vm_compute; reflexivity).
  intros E. apply (f_equal (fun st => localStorage st !! storageKey)) in E.
  vm_compute in E. discriminate.
Qed.

End ThemeClaims.

Section SetTheme.
Import ThemeManager Examples.

(** C6.  [setTheme] with a string other than "dark" and "light" returns
    the state it was given: flag, palette, icon and store are untouched.
    With "dark" or "light" it sets the flag to that theme, sets every
    variable of that theme's palette, and stores the string. *)
Theorem setTheme_accepts_dark_and_light_only (theme : jsstring) (st : State) :
  (theme ≠ dark → theme ≠ light → setTheme theme st = st)
  ∧ (theme = dark ∨ theme = light →
     isDarkTheme (setTheme theme st) = strict_eq theme dark
     ∧ getCurrentTheme (setTheme theme st) = theme
     ∧ (∀ name value, (name, value) ∈ palette (strict_eq theme dark) →
          rootStyle (setTheme theme st) !! name = Some value)
     ∧ localStorage (setTheme theme st) !! storageKey = Some theme
     ∧ setTheme theme st
       = saveThemePreference
           (applyTheme (mkState (strict_eq theme dark) (rootStyle st)
                          (themeToggle st) (localStorage st)))).
Proof.
  split.
  - intros Hd Hl. unfold setTheme, strict_eq.
    by rewrite !bool_decide_eq_false_2.
  - intros Hth.
    assert (Hc : strict_eq theme dark || strict_eq theme light = true).
    { unfold strict_eq. destruct Hth as [->| ->].
      - by rewrite bool_decide_eq_true_2.
      - rewrite (bool_decide_eq_true_2 (light = light)) by done.
        apply orb_true_r. }
    unfold setTheme. rewrite Hc.
    unfold saveThemePreference, applyTheme, getCurrentTheme. simpl.
    split; [done|]. split; [by destruct Hth as [->| ->]|].
    split; [|split; [|done]].
    + intros name value Hin. apply setProperties_lookup; [|done].
      apply palette_NoDup.
    + rewrite lookup_insert_eq. by destruct Hth as [->| ->].
Qed.

Lemma setTheme_accepts_dark_and_light_only_witness :
  setTheme (lit "Dark") first_visit = first_visit
  ∧ isDarkTheme (setTheme light first_visit) = false
  ∧ localStorage (setTheme light first_visit) !! storageKey = Some light.
Proof.
  destruct (setTheme_accepts_dark_and_light_only (lit "Dark") first_visit)
    as [Hno _].
  destruct (setTheme_accepts_dark_and_light_only light first_visit)
    as [_ Hyes].
  split; [apply Hno; vm_compute; discriminate|].
  destruct Hyes as (Hflag & _ & _ & Hstore & _); [by right|].
  split; [exact Hflag | exact Hstore].
Defined.

End SetTheme.

(** ** Regular expressions: the matcher decides the denoted language *)

Section RegexFacts.
Import Regex.

Lemma matches_cat_inv r1 r2 s :
  matches (Cat r1 r2) s ↔ ∃ s1 s2, s = s1 ++ s2 ∧ matches r1 s1 ∧ matches r2 s2.
Proof.
  split.
  - inversion 1; subst. eauto.
  - intros (s1 & s2 & -> & H1 & H2). by constructor.
Qed.

Lemma matches_alt_inv r1 r2 s :
  matches (Alt r1 r2) s ↔ matches r1 s ∨ matches r2 s.
Proof.
  split.
  - inversion 1; subst; auto.
  - intros [H|H]; [by apply m_alt_l | by apply m_alt_r].
Qed.

Lemma matches_class_inv p s :
  matches (Class p) s ↔ ∃ c, s = [c] ∧ p c = true.
Proof.
  split.
  - inversion 1; subst. eauto.
  - intros (c & -> & H). by constructor.
Qed.

Lemma matches_eps_inv s : matches Eps s ↔ s = [].
Proof.
  split.
  - by inversion 1.
  - intros ->. constructor.
Qed.

Lemma matches_empty_inv s : ¬ matches Empty s.
Proof. inversion 1. Qed.

Lemma nullable_spec r : nullable r = true ↔ matches r [].
Proof.
  induction r as [| |p|r1 IH1 r2 IH2|r1 IH1 r2 IH2|r IH]; simpl.
  - split; [done | by intros H%matches_empty_inv].
  - split; [constructor | done].
  - split; [done|]. intros (c & H & _)%matches_class_inv. discriminate.
  - rewrite andb_true_iff, IH1, IH2, matches_cat_inv. split.
    + intros [H1 H2]. by exists [], [].
    + intros (s1 & s2 & E & H1 & H2).
      symmetry in E. apply app_eq_nil in E as [-> ->]. done.
  - by rewrite orb_true_iff, IH1, IH2, matches_alt_inv.
  - split; [constructor | done].
Qed.

(** A non-empty match of [r*] starts with a non-empty match of [r]. *)
Lemma matches_star_cons_inv r c s :
  matches (Star r) (c :: s) →
  ∃ s1 s2, s = s1 ++ s2 ∧ matches r (c :: s1) ∧ matches (Star r) s2.
Proof.
  intros H. remember (Star r) as r' eqn:Er. remember (c :: s) as t eqn:Et.
  revert s Et.
  induction H as [| | | | | |r0 s1 s2 H1 _ H2 IH2]; intros u Et; try discriminate.
  injection Er as ->.
  destruct s1 as [|c1 s1]; simpl in Et.
  - by apply IH2.
  - injection Et as -> <-. eauto.
Qed.

Lemma deriv_spec r : ∀ c s, matches (deriv c r) s ↔ matches r (c :: s).
Proof.
  induction r as [| |p|r1 IH1 r2 IH2|r1 IH1 r2 IH2|r IH]; intros c s; simpl.
  - split; intros H; by apply matches_empty_inv in H.
  - split; intros H; [by apply matches_empty_inv in H|].
    by apply matches_eps_inv in H.
  - rewrite matches_class_inv. destruct (p c) eqn:Hp.
    + rewrite matches_eps_inv. split.
      * intros ->. eauto.
      * by intros (c' & [= _ ->] & _).
    + split; [by intros H%matches_empty_inv|].
      intros (c' & [= <- ->] & Hp'). congruence.
  - assert (Hcat : matches (Cat (deriv c r1) r2) s ↔
                   ∃ s1 s2, s = s1 ++ s2 ∧ matches r1 (c :: s1) ∧ matches r2 s2).
    { rewrite matches_cat_inv. by setoid_rewrite IH1. }
    assert (Hsplit : matches (Cat r1 r2) (c :: s) ↔
              (∃ s1 s2, s = s1 ++ s2 ∧ matches r1 (c :: s1) ∧ matches r2 s2)
              ∨ (matches r1 [] ∧ matches r2 (c :: s))).
    { rewrite matches_cat_inv. split.
      - intros (s1 & s2 & E & H1 & H2). destruct s1 as [|c1 s1]; simpl in E.
        + right. by subst.
        + injection E as <- ->. left. eauto.
      - intros [(s1 & s2 & -> & H1 & H2)|[H1 H2]].
        + by exists (c :: s1), s2.
        + by exists [], (c :: s). }
    destruct (nullable r1) eqn:Hn.
    + rewrite matches_alt_inv, Hcat, IH2, Hsplit.
      apply nullable_spec in Hn. tauto.
    + rewrite Hcat, Hsplit. split; [auto|].
      intros [H|[H _]]; [done|].
      apply nullable_spec in H. congruence.
  - by rewrite !matches_alt_inv, IH1, IH2.
  - rewrite matches_cat_inv. setoid_rewrite IH. split.
    + intros (s1 & s2 & -> & H1 & H2).
      by apply (m_star_cons r (c :: s1) s2).
    + apply matches_star_cons_inv.
Qed.

Theorem test_spec : ∀ s r, test r s = true ↔ matches r s.
Proof.
  induction s as [|c s IH]; intros r; simpl.
  - apply nullable_spec.
  - by rewrite IH, deriv_spec.
Qed.

Lemma matches_star_class p s :
  matches (Star (Class p)) s ↔ Forall (fun c => p c = true) s.
Proof.
  split.
  - intros H. remember (Star (Class p)) as r eqn:Er.
    induction H as [| | | | | |r0 s1 s2 H1 _ H2 IH2]; try discriminate.
    + constructor.
    + injection Er as ->. apply matches_class_inv in H1 as (c & -> & Hc).
      constructor; auto.
  - induction 1 as [|c s Hc _ IH]; [constructor|].
    apply (m_star_cons (Class p) [c] s); [by constructor | done].
Qed.

Lemma matches_plus_class p s :
  matches (Plus (Class p)) s ↔ s ≠ [] ∧ Forall (fun c => p c = true) s.
Proof.
  unfold Plus. rewrite matches_cat_inv. split.
  - intros (s1 & s2 & -> & (c & -> & Hc)%matches_class_inv & H2%matches_star_class).
    split; [done|]. by constructor.
  - intros [Hne Hall]. destruct Hall as [|c s Hc Hall]; [done|].
    exists [c], s. split; [done|]. split; [by constructor|].
    by apply matches_star_class.
Qed.

End RegexFacts.

(** ** Form validation *)

Section Validation.
Import Regex FormManager Examples.

Lemma emailRegex_language s : matches emailRegex s ↔ emailShape s.
Proof.
  unfold emailRegex, emailShape, plainRun, chr. split.
  - intros (name & s1 & -> & Hn%matches_plus_class
            & (a & s2 & -> & (c & -> & Hc)%matches_class_inv
               & (host & s3 & -> & Hh%matches_plus_class
                  & (d & rest & -> & (c' & -> & Hc')%matches_class_inv
                     & Hr%matches_plus_class)%matches_cat_inv
                 )%matches_cat_inv)%matches_cat_inv)%matches_cat_inv.
    apply N.eqb_eq in Hc as ->. apply N.eqb_eq in Hc' as ->.
    by exists name, host, rest.
  - intros (name & host & rest & -> & Hn & Hh & Hr).
    apply m_cat; [by apply matches_plus_class|].
    apply (m_cat _ _ [64%N]); [by constructor|].
    apply m_cat; [by apply matches_plus_class|].
    apply (m_cat _ _ [46%N]); [by constructor|].
    by apply matches_plus_class.
Qed.

(** The verdict of [validateInput], apart from what it does to the page. *)
Lemma validateInput_verdict i e :
  (validateInput i e).1
  = if required i && negb (JSString.truthy (trim (value i))) then false
    else if strict_eq (type i) (lit "email") && JSString.truthy (trim (value i))
         then test emailRegex (trim (value i))
         else true.
Proof.
  unfold validateInput. destruct (clearInputError i e) as [i1 e1].
  destruct (required i && _); [by destruct (showInputError _ _ _)|].
  destruct (strict_eq _ _ && _); [|done].
  destruct (test emailRegex _); [done|]. by destruct (showInputError _ _ _).
Qed.

(** C7.  [validateInput] rejects a required field whose trimmed value is
    empty; for a field of type [email] whose trimmed value is not empty it
    accepts exactly when that value matches [^[^\s@]+@[^\s@]+\.[^\s@]+$],
    that is, when it is three runs free of white space and [@] joined by
    an [@] and a dot.  So "a@b.co" passes, "a@b" fails, and an empty
    required field fails. *)
Theorem validateInput_required_and_email (i : Input) (e : Errors) :
  (required i = true → trim (value i) = [] → (validateInput i e).1 = false)
  ∧ (type i = lit "email" → trim (value i) ≠ [] →
     ((validateInput i e).1 = true ↔ matches emailRegex (trim (value i)))
     ∧ ((validateInput i e).1 = true ↔ emailShape (trim (value i))))
  ∧ (type i = lit "email" → value i = lit "a@b.co" → (validateInput i e).1 = true)
  ∧ (type i = lit "email" → value i = lit "a@b" → (validateInput i e).1 = false)
  ∧ (required i = true → value i = lit "" → (validateInput i e).1 = false).
Proof.
  rewrite validateInput_verdict.
  split; [by intros -> ->|].
  split.
  { intros Hty Hne.
    assert (Hv : (if required i && negb (JSString.truthy (trim (value i)))
                  then false
                  else if strict_eq (type i) (lit "email")
                          && JSString.truthy (trim (value i))
                       then test emailRegex (trim (value i)) else true)
                 = test emailRegex (trim (value i))).
    { rewrite Hty. destruct (trim (value i)) as [|c v]; [done|].
      simpl. by rewrite andb_false_r. }
    rewrite Hv, test_spec. split; [done|]. apply emailRegex_language. }
  split; [intros -> ->; by destruct (required i)|].
  split; [intros -> ->; by destruct (required i)|].
  by intros -> ->.
Qed.

Lemma validateInput_required_and_email_witness :
  (validateInput (control (lit "text") true (lit "   ")) ∅).1 = false
  ∧ (validateInput (control (lit "email") false (lit " jo@site.org ")) ∅).1 = true.
Proof.
  split.
  - destruct (validateInput_required_and_email
                (control (lit "text") true (lit "   ")) ∅) as [Hreq _].
    apply Hreq; reflexivity.
  - destruct (validateInput_required_and_email
                (control (lit "email") false (lit " jo@site.org ")) ∅)
      as (_ & Hmail & _).
    destruct Hmail as [_ Hshape]; [reflexivity | vm_compute; discriminate |].
    apply Hshape.
    exists (lit "jo"), (lit "site"), (lit "org").
    split; [reflexivity|].
    repeat split; try (vm_compute; discriminate); repeat constructor.
Defined.

End Validation.

(** ** Form submission *)

Section Submission.
Import FormManager Examples.

Lemma guard_updateSubmitButton text d st :
  guard (updateSubmitButton text d st) = guard st.
Proof. unfold updateSubmitButton. by destruct (submitButton st). Qed.

Lemma guard_validateForm st : guard (validateForm st).2 = guard st.
Proof.
  unfold validateForm. by destruct (validateInputs _ _) as [ok [ins e]].
Qed.

Lemma guard_update_input k f st : guard (update_input k f st) = guard st.
Proof.
  unfold update_input. destruct (formInputs st !! k) as [i|]; [|done].
  by destruct (f i (errors st)).
Qed.

Lemma guard_showSuccessMessage st :
  guard (state_of (showSuccessMessage st)) = guard st.
Proof.
  unfold showSuccessMessage.
  destruct (submitButton (updateSubmitButton _ _ st));
    simpl; apply guard_updateSubmitButton.
Qed.

Lemma guard_resetForm st : guard (state_of (resetForm st)) = guard st.
Proof.
  unfold resetForm. destruct (contactForm st); [|done].
  by destruct (resetInputs _ _).
Qed.

Lemma guard_tryBlock st : guard (state_of (tryBlock st)) = guard st.
Proof.
  unfold tryBlock. pose proof (guard_showSuccessMessage st) as H.
  destruct (showSuccessMessage st) as [st1|st1]; simpl in *; [|done].
  by rewrite guard_resetForm.
Qed.

Lemma guard_catchBlock c : guard (catchBlock c) = guard (state_of c).
Proof. by destruct c. Qed.

Lemma guard_resume st n :
  inFlight st = S n → guard (resume st) = (false, n).
Proof.
  intros E. unfold resume, finallyBlock. rewrite E.
  rewrite guard_updateSubmitButton. unfold guard. simpl.
  f_equal.
  change (inFlight (catchBlock (tryBlock (set_inFlight n st))))
    with (guard (catchBlock (tryBlock (set_inFlight n st)))).2.
  by rewrite guard_catchBlock, guard_tryBlock.
Qed.

Lemma consistent_guard st st' :
  guard st' = guard st → consistent st → consistent st'.
Proof. unfold consistent, guard. by intros [= -> ->]. Qed.

Lemma handleFormSubmission_guard st :
  guard (handleFormSubmission st) = guard st
  ∨ (isSubmitting st = false
     ∧ guard (handleFormSubmission st) = (true, S (inFlight st))).
Proof.
  unfold handleFormSubmission. destruct (isSubmitting st) eqn:E; [by left|].
  pose proof (guard_validateForm st) as Hv.
  destruct (validateForm st) as [ok st1]. simpl in Hv.
  destruct ok; simpl; [|by left].
  right. split; [done|].
  pose proof (guard_updateSubmitButton (lit "Sending...") true
                (set_submitting true st1)) as Hg.
  unfold guard in *. simpl in *.
  injection Hg as Hs Hf. injection Hv as _ Hf1.
  by rewrite Hs, Hf, Hf1.
Qed.

Lemma step_consistent st ev : consistent st → consistent (step st ev).
Proof.
  intros Hc. destruct ev as [| |k|k|k v|]; simpl.
  - destruct (handleFormSubmission_guard st) as [Hg|[Hs Hg]].
    + by apply (consistent_guard st).
    + unfold consistent in *. rewrite Hs in Hc.
      unfold guard in Hg. injection Hg as -> ->. by rewrite Hc.
  - destruct (inFlight st) as [|n] eqn:E; [by unfold resume; rewrite E|].
    pose proof (guard_resume st n E) as Hg.
    unfold consistent in *. rewrite E in Hc.
    unfold guard in Hg. injection Hg as -> ->.
    destruct (isSubmitting st); congruence.
  - apply (consistent_guard st); [apply guard_update_input | done].
  - apply (consistent_guard st); [apply guard_update_input | done].
  - apply (consistent_guard st); [apply guard_update_input | done].
  - destruct (resetTimers st) as [|n]; [done|].
    apply (consistent_guard st); [|done].
    by rewrite guard_updateSubmitButton.
Qed.

Lemma run_consistent evs : ∀ st, consistent st → consistent (run evs st).
Proof.
  induction evs as [|ev evs IH]; intros st Hc; [done|].
  unfold run in *. simpl. by apply IH, step_consistent.
Qed.

Lemma constructor_consistent form button inputs e notes :
  consistent (constructor form button inputs e notes).
Proof. reflexivity. Qed.

(** With the form and its button on the page, the [try] block runs to its
    end and the [catch] branch is not entered. *)
Lemma tryBlock_normal st b :
  contactForm st = true → submitButton st = Some b →
  ∃ st', tryBlock st = Normal st'
         ∧ notifications (catchBlock (tryBlock st)) = notifications st
         ∧ consoleErrors (catchBlock (tryBlock st)) = consoleErrors st.
Proof.
  intros Hf Hb. unfold tryBlock, showSuccessMessage, updateSubmitButton.
  rewrite Hb. simpl. unfold resetForm. simpl. rewrite Hf.
  destruct (resetInputs _ _) as [ins e]. eauto.
Qed.

End Submission.

Section SubmissionClaims.
Import FormManager Examples.

(** C8.  A call of [handleFormSubmission] made while [isSubmitting] is set
    returns the state as it is: nothing is validated, no submission is
    started, no part of the form changes.  Hence, whatever the sequence of
    submit events, timers and field events after the constructor, at most
    one simulated submission is in flight, and one is in flight exactly
    while the flag is set. *)
Theorem one_submission_in_flight :
  (∀ st, isSubmitting st = true →
         handleFormSubmission st = st ∧ step st Submit = st)
  ∧ (∀ form button inputs e notes evs,
        let st := run evs (constructor form button inputs e notes) in
        (inFlight st ≤ 1)%nat ∧ (inFlight st = 1%nat ↔ isSubmitting st = true))
  ∧ (∀ st n, isSubmitting st = true → run (repeat Submit n) st = st).
Proof.
  assert (Hnoop : ∀ st, isSubmitting st = true → handleFormSubmission st = st).
  { intros st H. unfold handleFormSubmission. by rewrite H. }
  split; [|split].
  - intros st H. split; by apply Hnoop.
  - intros form button inputs e notes evs st.
    pose proof (run_consistent evs _
                  (constructor_consistent form button inputs e notes)) as Hc.
    fold st in Hc. unfold consistent in Hc.
    destruct (isSubmitting st); rewrite Hc; split; try lia; split; done.
  - intros st n H. induction n as [|n IH]; [done|].
    unfold run in *. simpl. by rewrite Hnoop.
Qed.

Lemma one_submission_in_flight_witness :
  let st := step (contact_page (Some submit_button)
                    [control (lit "email") true (lit "a@b.co")]) Submit in
  inFlight st = 1%nat ∧ handleFormSubmission st = st.
Proof.
  destruct one_submission_in_flight as (Hnoop & _ & _).
  split; [reflexivity|].
  apply Hnoop. reflexivity.
Defined.

(** C9, on a page that has the contact form but no element with id
    [submitBtn].  The form is valid and the simulated submission resolves,
    but [showSuccessMessage] then reads [this.submitButton.style] of
    [null]: the [catch] branch runs, the error is logged and the failure
    notification is shown; the form is not reset.  On the same page with
    the button the submission ends in the success path. *)
Lemma submission_without_button_reaches_catch :
  let valid := [control (lit "email") true (lit "a@b.co")] in
  let bare := contact_page None valid in
  let full := contact_page (Some submit_button) valid in
  (validateForm bare).1 = true
  ∧ guard (step bare Submit) = (true, 1%nat)
  ∧ notifications (run [Submit; TimerFired] bare)
    = [lit "Failed to send message. Please try again."]
  ∧ consoleErrors (run [Submit; TimerFired] bare) = 1%nat
  ∧ resetTimers (run [Submit; TimerFired] bare) = 0%nat
  ∧ value <$> formInputs (run [Submit; TimerFired] bare) = [lit "a@b.co"]
  ∧ guard (run [Submit; TimerFired] bare) = (false, 0%nat)
  ∧ notifications (run [Submit; TimerFired] full) = []
  ∧ consoleErrors (run [Submit; TimerFired] full) = 0%nat
  ∧ value <$> formInputs (run [Submit; TimerFired] full) = [lit ""].
Proof. repeat split; vm_compute; reflexivity. Qed.

End SubmissionClaims.

(** * Further properties of the managers *)

(** ** The typewriter *)

Section TypewriterFacts.
Import Typewriter.

Lemma texts_lookup (i : Z) :
  0 ≤ i < 4 →
  ∃ t, texts !! Z.to_nat i = Some t ∧ (0 < length t)%nat.
Proof.
  intros H.
  assert (i = 0 ∨ i = 1 ∨ i = 2 ∨ i = 3) as [-> | [-> | [-> | ->]]] by lia;
    eexists; (split; [reflexivity | vm_compute; lia]).
Qed.

Lemma currentTextOf_index st t :
  currentTextOf st = Some t → 0 ≤ textIndex st < 4.
Proof.
  unfold currentTextOf. destruct (textIndex st <? 0) eqn:E; [done|].
  intros H. apply lookup_lt_Some in H. simpl in H. lia.
Qed.

Lemma currentTextOf_at i ci d c :
  0 ≤ i → currentTextOf (mkState i ci d c) = texts !! Z.to_nat i.
Proof.
  intros H. unfold currentTextOf. simpl.
  destruct (i <? 0) eqn:E; [lia | done].
Qed.

(** One run of [type] from a state in range does not throw, stays in
    range and leaves the subtitle showing the typed part. *)
Lemma type_keeps_inRange st :
  inRange st →
  ∃ st' delay, type st = Some (st', delay) ∧ inRange st' ∧ shown st'.
Proof.
  intros (t & Ht & Hci & Hdel & Htyp).
  pose proof (currentTextOf_index st t Ht) as Hidx.
  unfold type. rewrite Ht.
  destruct (isDeleting st) eqn:Ed; simpl.
  - specialize (Hdel eq_refl).
    destruct (charIndex st - 1 =? 0) eqn:E0.
    + destruct (texts_lookup ((textIndex st + 1) mod 4)) as (t' & Ht' & Hlen).
      { apply Z.mod_pos_bound. lia. }
      eexists _, _. split; [reflexivity|].
      change (Z.of_nat (length texts)) with 4.
      assert (Hcur : currentTextOf
                (mkState ((textIndex st + 1) mod 4) (charIndex st - 1) false
                   (substring0 t (charIndex st - 1))) = Some t').
      { rewrite currentTextOf_at; [done|]. apply Z.mod_pos_bound. lia. }
      split.
      * exists t'. split; [exact Hcur|]. simpl. split; [lia|].
        split; [done|]. intros _. lia.
      * exists t'. split; [exact Hcur|]. simpl.
        assert (charIndex st - 1 = 0) as -> by lia. reflexivity.
    + eexists _, _. split; [reflexivity|].
      assert (Hcur : currentTextOf
                (mkState (textIndex st) (charIndex st - 1) true
                   (substring0 t (charIndex st - 1))) = Some t).
      { rewrite currentTextOf_at; [|lia]. revert Ht. unfold currentTextOf.
        by destruct (textIndex st <? 0). }
      split.
      * exists t. split; [exact Hcur|]. simpl. split; [lia|].
        split; [intros _; lia | done].
      * exists t. split; [exact Hcur | reflexivity].
  - specialize (Htyp eq_refl).
    assert (Hcur : ∀ d c, currentTextOf
              (mkState (textIndex st) (charIndex st + 1) d c) = Some t).
    { intros d c. rewrite currentTextOf_at; [|lia]. revert Ht.
      unfold currentTextOf. by destruct (textIndex st <? 0). }
    destruct (charIndex st + 1 =? Z.of_nat (length t)) eqn:E.
    + eexists _, _. split; [reflexivity|]. split.
      * exists t. split; [apply Hcur|]. simpl. split; [lia|].
        split; [intros _; lia | done].
      * exists t. split; [apply Hcur | reflexivity].
    + eexists _, _. split; [reflexivity|]. split.
      * exists t. split; [apply Hcur|]. simpl. split; [lia|].
        split; [done | intros _; lia].
      * exists t. split; [apply Hcur | reflexivity].
Qed.

Lemma initial_inRange originalText : inRange (initial originalText).
Proof.
  exists (lit "Creative Developer"). split; [reflexivity|]. simpl.
  split; [lia|]. split; [done|]. intros _. lia.
Qed.

(** X1.  The typewriter never throws and never runs off a phrase: after
    any number of runs of [type] the indices are in range, and from the
    first run on the subtitle shows exactly the first [charIndex]
    characters of the current phrase. *)
Theorem typewriter_shows_typed_prefix (n : nat) (originalText : jsstring) :
  ∃ st,
    ticks n (initial originalText) = Some st
    ∧ inRange st
    ∧ 0 ≤ textIndex st < 4
    ∧ ((0 < n)%nat → shown st).
Proof.
  assert (H : ∀ n st, inRange st →
            ∃ st', ticks n st = Some st' ∧ inRange st'
                   ∧ ((0 < n)%nat → shown st')).
  { clear. induction n as [|n IH]; intros st Hr.
    - exists st. split; [done|]. split; [done|]. lia.
    - destruct (type_keeps_inRange st Hr) as (st1 & delay & Ht & Hr1 & Hs1).
      simpl. rewrite Ht. destruct n as [|n].
      + exists st1. simpl. auto.
      + destruct (IH st1 Hr1) as (st' & Hk & Hr' & Hs').
        exists st'. split; [exact Hk|]. split; [exact Hr'|].
        intros _. apply Hs'. lia. }
  destruct (H n (initial originalText) (initial_inRange originalText))
    as (st & Hk & Hr & Hs).
  exists st. split; [exact Hk|]. split; [exact Hr|]. split; [|exact Hs].
  destruct Hr as (t & Ht & _). by apply (currentTextOf_index st t).
Qed.

(** X2.  Each phrase is typed out in full and erased completely before the
    next begins: from the start of phrase [k], as many runs as the phrase
    has characters show the whole phrase, and as many again leave the
    subtitle empty at the start of the next phrase, the first after the
    last. *)
Theorem typewriter_types_and_erases_each_phrase
    (k : Z) (phrase shownBefore : jsstring) :
  0 ≤ k →
  texts !! Z.to_nat k = Some phrase →
  ticks (length phrase) (mkState k 0 false shownBefore)
  = Some (mkState k (Z.of_nat (length phrase)) true phrase)
  ∧ ticks (2 * length phrase) (mkState k 0 false shownBefore)
    = Some (mkState ((k + 1) mod 4) 0 false []).
Proof.
  intros Hk Ht.
  assert (Hlt : (Z.to_nat k < 4)%nat) by (apply lookup_lt_Some in Ht; exact Ht).
  assert (k = 0 ∨ k = 1 ∨ k = 2 ∨ k = 3) as [-> | [-> | [-> | ->]]] by lia;
    injection Ht as <-; split; vm_compute; reflexivity.
Qed.

Lemma typewriter_types_and_erases_each_phrase_witness :
  ticks 28 (mkState 3 0 false (lit "Hello"))
  = Some (mkState 0 0 false []).
Proof.
  destruct (typewriter_types_and_erases_each_phrase 3 (lit "Problem Solver")
              (lit "Hello")) as [_ H]; [lia | reflexivity | exact H].
Defined.

End TypewriterFacts.

(** ** The Konami code *)

Section KonamiFacts.
Import Konami.

Lemma uint_units_inj u : ∀ v,
  JSNumber.uint_units u = JSNumber.uint_units v → u = v.
Proof.
  induction u; intros v H; destruct v; simpl in H;
    try discriminate H; try reflexivity;
    injection H as H; f_equal; by apply IHu.
Qed.

Lemma uint_units_no_comma u : 44%N ∉ JSNumber.uint_units u.
Proof.
  induction u; simpl; [apply not_elem_of_nil|..];
    (apply not_elem_of_cons; split; [by vm_compute | exact IHu]).
Qed.

Lemma decimal_of_N_inj a b :
  JSNumber.decimal (Z.of_N a) = JSNumber.decimal (Z.of_N b) → a = b.
Proof.
  unfold JSNumber.decimal. rewrite !N2Z.id.
  intros H. by apply DecimalN.Unsigned.to_uint_inj, uint_units_inj.
Qed.

Lemma decimal_of_N_nonempty a : JSNumber.decimal (Z.of_N a) ≠ [].
Proof.
  unfold JSNumber.decimal. rewrite N2Z.id. destruct a as [|p]; [done|].
  simpl. pose proof (DecimalPos.Unsigned.to_uint_nonnil p) as H.
  by destruct (Pos.to_uint p).
Qed.

Lemma decimal_of_N_no_comma a : 44%N ∉ JSNumber.decimal (Z.of_N a).
Proof. apply uint_units_no_comma. Qed.

(** Two comma-free heads followed by nothing or by a comma and more:
    equal wholes have equal heads. *)
Lemma head_before_comma (x y r1 r2 : jsstring) :
  44%N ∉ x → 44%N ∉ y →
  (r1 = [] ∨ ∃ r, r1 = 44%N :: r) → (r2 = [] ∨ ∃ r, r2 = 44%N :: r) →
  x ++ r1 = y ++ r2 → x = y ∧ r1 = r2.
Proof.
  revert y. induction x as [|c x IH]; intros y Hx Hy H1 H2 E.
  - destruct y as [|d y]; [done|]. simpl in E.
    destruct H1 as [->|[r ->]]; [done|]. injection E as <- _.
    exfalso. apply Hy. left.
  - destruct y as [|d y]; simpl in E.
    + destruct H2 as [->|[r ->]]; [done|]. injection E as -> _.
      exfalso. apply Hx. left.
    + injection E as -> E.
      destruct (IH y) as [-> ->]; try done.
      * intros Hin. apply Hx. by right.
      * intros Hin. apply Hy. by right.
Qed.

Lemma join_cons sep x rest :
  join sep (x :: rest)
  = x ++ match rest with [] => [] | _ => sep ++ join sep rest end.
Proof. destruct rest; simpl; [by rewrite app_nil_r | done]. Qed.

Lemma join_comma_inj (l1 : list jsstring) : ∀ l2,
  Forall (fun x => x ≠ [] ∧ 44%N ∉ x) l1 →
  Forall (fun x => x ≠ [] ∧ 44%N ∉ x) l2 →
  join (lit ",") l1 = join (lit ",") l2 → l1 = l2.
Proof.
  induction l1 as [|x l1 IH]; intros l2 H1 H2 E.
  - destruct l2 as [|y l2]; [done|]. rewrite join_cons in E. simpl in E.
    apply Forall_cons in H2 as [[Hy _] _]. symmetry in E.
    apply app_eq_nil in E as [-> _]. done.
  - destruct l2 as [|y l2].
    + rewrite join_cons in E. simpl in E.
      apply Forall_cons in H1 as [[Hx _] _].
      apply app_eq_nil in E as [-> _]. done.
    + rewrite !join_cons in E.
      apply Forall_cons in H1 as [[Hx Hcx] H1].
      apply Forall_cons in H2 as [[Hy Hcy] H2].
      apply head_before_comma in E as [-> E]; try done.
      * f_equal. destruct l1 as [|a l1], l2 as [|b l2]; try done.
        apply IH; try done. by injection E.
      * destruct l1; [by left | right; eauto].
      * destruct l2; [by left | right; eauto].
Qed.

(** Comparing the printed arrays compares the key codes. *)
Lemma arrayToString_inj a b : arrayToString a = arrayToString b → a = b.
Proof.
  unfold arrayToString. intros E.
  apply join_comma_inj in E.
  - revert b E. induction a as [|x a IH]; intros [|y b] E; try done.
    simpl in E. injection E as Ex E. f_equal; [|by apply IH].
    by apply decimal_of_N_inj.
  - apply Forall_fmap, Forall_forall. intros k _. simpl.
    split; [apply decimal_of_N_nonempty | apply decimal_of_N_no_comma].
  - apply Forall_fmap, Forall_forall. intros k _. simpl.
    split; [apply decimal_of_N_nonempty | apply decimal_of_N_no_comma].
Qed.

Lemma keydown_code k st :
  konamiCode (keydown k st)
  = if (10 <? length (konamiCode st ++ [k]))%nat
    then tail (konamiCode st ++ [k]) else konamiCode st ++ [k].
Proof.
  unfold keydown. change (length konamiSequence) with 10%nat.
  by destruct (strict_eq _ _).
Qed.

Lemma typed_code keys : ∀ st,
  (length (konamiCode st) ≤ 10)%nat →
  konamiCode (typed keys st) = lastTen (konamiCode st ++ keys).
Proof.
  unfold lastTen.
  induction keys as [|k keys IH]; intros st Hlen.
  - simpl. rewrite app_nil_r.
    replace (length (konamiCode st) - 10)%nat with 0%nat by lia. done.
  - unfold typed in *. simpl.
    assert (Hc := keydown_code k st).
    destruct (10 <? length (konamiCode st ++ [k]))%nat eqn:E.
    + apply Nat.ltb_lt in E. rewrite length_app in E. simpl in E.
      destruct (konamiCode st) as [|x c] eqn:Ec; simpl in *; [lia|].
      rewrite IH by (rewrite Hc, length_app; simpl; lia).
      rewrite Hc, <- app_assoc. simpl.
      rewrite ?length_app. simpl. rewrite ?length_app. simpl.
      replace (length c + S (length keys) - 10)%nat with (length keys) by lia.
      replace (length c + S (length keys) - 9)%nat
        with (S (length keys)) by lia.
      done.
    + apply Nat.ltb_ge in E. rewrite length_app in E. simpl in E.
      rewrite IH by (rewrite Hc, length_app; simpl; lia).
      by rewrite Hc, <- app_assoc.
Qed.

(** X3.  The buffer of the Konami listener is a sliding window: after any
    keys it holds the last ten key codes pressed (all of them while fewer
    than ten were pressed), and so never more than ten. *)
Theorem konami_buffer_is_last_ten_keys
    (keys : list N) (animation : jsstring) (styles : nat) :
  konamiCode (typed keys (fresh animation styles)) = lastTen keys
  ∧ (length (konamiCode (typed keys (fresh animation styles))) ≤ 10)%nat.
Proof.
  assert (E : konamiCode (typed keys (fresh animation styles)) = lastTen keys).
  { rewrite typed_code by (simpl; lia). done. }
  split; [exact E|]. rewrite E. unfold lastTen. rewrite length_drop. lia.
Qed.

(** X4.  A key press starts rainbow mode exactly when the last ten keys,
    this one included, are up up down down left right left right B A:
    then the body animation is set, the style element is there and one
    more 10 s timer is pending; otherwise the key changes the buffer
    only. *)
Theorem konami_triggers_on_the_sequence_only
    (keys : list N) (k : N) (animation : jsstring) (styles : nat) :
  let st := typed keys (fresh animation styles) in
  let st' := keydown k st in
  (lastTen (keys ++ [k]) = konamiSequence →
     pendingResets st' = S (pendingResets st)
     ∧ bodyAnimation st' = lit "rainbow 2s infinite"
     ∧ (1 ≤ rainbowStyles st')%nat)
  ∧ (lastTen (keys ++ [k]) ≠ konamiSequence →
     pendingResets st' = pendingResets st
     ∧ bodyAnimation st' = bodyAnimation st
     ∧ rainbowStyles st' = rainbowStyles st).
Proof.
  intros st st'.
  assert (Hcode : konamiCode st' = lastTen (keys ++ [k])).
  { assert (st' = typed (keys ++ [k]) (fresh animation styles)) as ->
      by (unfold st', st, typed; by rewrite foldl_snoc).
    rewrite typed_code by (simpl; lia). done. }
  assert (Hbuf : (if (length konamiSequence <? length (konamiCode st ++ [k]))%nat
                  then tail (konamiCode st ++ [k]) else konamiCode st ++ [k])
                 = lastTen (keys ++ [k])).
  { rewrite <- Hcode. symmetry. apply keydown_code. }
  unfold st', keydown. rewrite Hbuf. unfold strict_eq. split.
  - intros ->. rewrite bool_decide_eq_true_2 by done. simpl.
    repeat split; try done. destruct (rainbowStyles st); lia.
  - intros Hne. rewrite bool_decide_eq_false_2; [done|].
    intros E. by apply Hne, arrayToString_inj.
Qed.

Lemma konami_triggers_on_the_sequence_only_witness :
  bodyAnimation
    (keydown 65 (typed [13; 38; 38; 40; 40; 37; 39; 37; 39; 66]%N (fresh [] 0)))
  = lit "rainbow 2s infinite".
Proof.
  destruct (konami_triggers_on_the_sequence_only
              [13; 38; 38; 40; 40; 37; 39; 37; 39; 66]%N 65 [] 0) as [H _].
  destruct H as (_ & H & _); [reflexivity | exact H].
Defined.

End KonamiFacts.

Section RainbowFacts.
Import Konami.

Lemma step_styles st ev :
  (rainbowStyles (step st ev) ≤ Nat.max 1 (rainbowStyles st))%nat
  ∧ (rainbowStyles st ≤ rainbowStyles (step st ev))%nat.
Proof.
  destruct ev as [k|]; simpl.
  - unfold keydown. destruct (strict_eq _ _); simpl;
      destruct (rainbowStyles st); lia.
  - unfold resetTimerFired. destruct (pendingResets st); simpl; lia.
Qed.

(** X5.  Rainbow mode adds its style element once: however many keys are
    pressed and timers fire, the head never holds more of these elements
    than it had, or one if it had none; an element that is there is never
    removed by key presses or timers. *)
Theorem rainbow_style_is_added_once
    (evs : list Event) (animation : jsstring) (styles : nat) :
  (rainbowStyles (run evs (fresh animation styles)) ≤ Nat.max 1 styles)%nat
  ∧ (styles ≤ rainbowStyles (run evs (fresh animation styles)))%nat.
Proof.
  assert (H : ∀ evs st,
            (rainbowStyles (run evs st) ≤ Nat.max 1 (rainbowStyles st))%nat
            ∧ (rainbowStyles st ≤ rainbowStyles (run evs st))%nat).
  { clear. induction evs as [|ev evs IH]; intros st; [simpl; lia|].
    unfold run in *. simpl.
    destruct (IH (step st ev)) as [H1 H2].
    destruct (step_styles st ev) as (H3 & H4). lia. }
  apply (H evs (fresh animation styles)).
Qed.

End RainbowFacts.

(** ** The theme across reloads *)

Section ThemeReload.
Import ThemeManager ThemeLifecycle Examples.

Lemma inSync_stored st :
  inSync st → localStorage st !! storageKey = Some (getCurrentTheme st).
Proof.
  intros [_ Hs]. rewrite <- Hs at 1.
  unfold saveThemePreference, getCurrentTheme. simpl.
  by rewrite lookup_insert_eq.
Qed.

Lemma load_stored_name (f : bool) (root : gmap jsstring jsstring)
    (toggle : option jsstring) (storage : gmap jsstring jsstring) :
  storage !! storageKey = Some (if f then dark else light) →
  constructor root toggle storage
  = applyTheme (mkState f root toggle storage).
Proof.
  intros E. unfold constructor, loadThemePreference. simpl. rewrite E.
  by destruct f.
Qed.

(** X6.  The preference survives a reload.  After [toggleTheme], and
    after [setTheme] with "dark" or "light", a new manager built on any
    page with the same store comes up with the same theme and applies its
    palette; built on the page the old manager left, it is in exactly the
    state the old one was in. *)
Theorem theme_survives_reload (st : State) (theme : jsstring) :
  theme = dark ∨ theme = light →
  (∀ root toggle,
      getCurrentTheme (constructor root toggle (localStorage (setTheme theme st)))
      = theme
      ∧ getCurrentTheme
          (constructor root toggle (localStorage (toggleTheme st)))
        = getCurrentTheme (toggleTheme st)
      ∧ ∀ name value,
          (name, value) ∈ palette (isDarkTheme (toggleTheme st)) →
          rootStyle (constructor root toggle (localStorage (toggleTheme st)))
            !! name = Some value)
  ∧ reload (setTheme theme st) = setTheme theme st
  ∧ reload (toggleTheme st) = toggleTheme st.
Proof.
  intros Hth.
  assert (Hany : ∀ (s : State) (root : gmap jsstring jsstring)
                   (toggle : option jsstring), inSync s →
            constructor root toggle (localStorage s)
            = applyTheme (mkState (isDarkTheme s) root toggle (localStorage s))).
  { intros s root toggle Hs. apply load_stored_name.
    rewrite (inSync_stored s Hs). unfold getCurrentTheme.
    by destruct (isDarkTheme s). }
  assert (Hre : ∀ s : State, inSync s → reload s = s).
  { intros s Hs. unfold reload. rewrite (Hany s _ _ Hs).
    destruct Hs as [Ha _]. by destruct s. }
  assert (Hset : setTheme theme st
                 = saveThemePreference
                     (applyTheme (mkState (strict_eq theme dark) (rootStyle st)
                                    (themeToggle st) (localStorage st)))).
  { unfold setTheme, strict_eq. destruct Hth as [-> | ->].
    - by rewrite bool_decide_eq_true_2.
    - rewrite (bool_decide_eq_true_2 (light = light)) by done.
      by rewrite orb_true_r. }
  assert (Hs1 : inSync (setTheme theme st))
    by (rewrite Hset; apply inSync_after).
  assert (Hs2 : inSync (toggleTheme st))
    by (unfold toggleTheme; apply inSync_after).
  split; [|split; [by apply Hre | by apply Hre]].
  intros root toggle. rewrite (Hany _ root toggle Hs1), (Hany _ root toggle Hs2).
  split; [|split].
  - rewrite Hset. unfold getCurrentTheme, applyTheme. simpl.
    by destruct Hth as [-> | ->].
  - done.
  - intros name value Hin. unfold applyTheme. simpl.
    apply setProperties_lookup; [apply palette_NoDup | exact Hin].
Qed.

Lemma theme_survives_reload_witness :
  getCurrentTheme
    (constructor ∅ (Some moon) (localStorage (setTheme light first_visit)))
  = light.
Proof.
  destruct (theme_survives_reload first_visit light) as [H _]; [by right|].
  apply (H ∅ (Some moon)).
Defined.

(** X7.  [destroy] puts the dark theme on the page but does not touch the
    store: when palette, icon and stored string agreed with the flag, a
    new manager on the page left by [destroy] restores the state from
    before, light theme included. *)
Theorem destroy_keeps_the_stored_preference (st : State) :
  inSync st →
  getCurrentTheme (destroy st) = dark
  ∧ localStorage (destroy st) = localStorage st
  ∧ (∀ name value, (name, value) ∈ darkPalette →
       rootStyle (destroy st) !! name = Some value)
  ∧ reload (destroy st) = st.
Proof.
  intros Hs. split; [done|]. split; [done|]. split.
  - intros name value Hin.
    apply (setProperties_lookup darkPalette (rootStyle st));
      [apply (palette_NoDup true) | exact Hin].
  - unfold reload, destroy.
    rewrite (load_stored_name (isDarkTheme st)).
    + destruct Hs as [Ha _]. destruct st as [f root toggle storage].
      unfold applyTheme in *.
      cbn [isDarkTheme rootStyle themeToggle localStorage] in *.
      rewrite (setProperties_over _ _ _ (palette_names f true)).
      injection Ha as Hroot Htog. rewrite Hroot. f_equal.
      destruct toggle; [exact Htog | done].
    + simpl. rewrite (inSync_stored st Hs). unfold getCurrentTheme.
      by destruct (isDarkTheme st).
Qed.

Lemma destroy_keeps_the_stored_preference_witness :
  getCurrentTheme (reload (destroy (toggleTheme first_visit))) = light.
Proof.
  destruct (destroy_keeps_the_stored_preference (toggleTheme first_visit))
    as (_ & _ & _ & H).
  - split; vm_compute; reflexivity.
  - rewrite H. reflexivity.
Defined.

End ThemeReload.

(** ** Parallax and scroll handling, further *)

Section ParallaxMore.
Import JSNumber AnimationManager Examples.

(** A pass that applies an idempotent change to each listed element
    changes the listed elements once and no other. *)
Lemma forEach_alter_lookup (f : Element → Element) nodes j :
  (∀ el, f (f el) = f el) →
  ∀ doc : Document,
    forEach (fun k => alter f k) nodes doc !! j
    = if decide (j ∈ nodes) then f <$> doc !! j else doc !! j.
Proof.
  intros Hf. induction nodes as [|a nodes IH]; intros doc.
  - rewrite decide_False by apply not_elem_of_nil. done.
  - unfold forEach in *. simpl. rewrite IH.
    destruct (decide (a = j)) as [->|Hne].
    + rewrite lookup_alter_eq.
      rewrite (decide_True (P := j ∈ j :: nodes)) by left.
      destruct (decide (j ∈ nodes)); [|done].
      destruct (doc !! j); simpl; [by rewrite Hf | done].
    + rewrite lookup_alter_ne by done.
      destruct (decide (j ∈ nodes)) as [Hin|Hout].
      * rewrite decide_True by (by right). done.
      * rewrite decide_False; [done|].
        intros [?|?]%elem_of_cons; done.
Qed.

Lemma parallaxElement_idem y el :
  parallaxElement y (parallaxElement y el) = parallaxElement y el.
Proof.
  unfold parallaxElement at 1 3.
  rewrite (parallaxSpeed_dataset el (parallaxElement y el)) by done.
  unfold parallaxElement, set_style. simpl. by rewrite insert_insert_eq.
Qed.

(** X8.  [updateParallax] is idempotent for a given window and writes
    nothing but [style.transform] of the listed elements: a second pass
    changes nothing, elements outside the list are untouched, and classes
    and data attributes of all elements stay as they are. *)
Theorem updateParallax_is_idempotent
    (w : Window) (st : State) (doc : Document) :
  updateParallax w st (updateParallax w st doc) = updateParallax w st doc
  ∧ (∀ j, j ∉ floatingElements st → updateParallax w st doc !! j = doc !! j)
  ∧ (∀ j, classList <$> updateParallax w st doc !! j = classList <$> doc !! j)
  ∧ (∀ j, dataset <$> updateParallax w st doc !! j = dataset <$> doc !! j)
  ∧ (∀ j prop, prop ≠ transform →
       (updateParallax w st doc !! j ≫= fun el => style el !! prop)
       = (doc !! j ≫= fun el => style el !! prop)).
Proof.
  pose proof (forEach_alter_lookup (parallaxElement (scrollY w))
                (floatingElements st)) as L.
  unfold updateParallax.
  split; [|split; [|split; [|split]]].
  - apply map_eq. intros j.
    rewrite !(L j (parallaxElement_idem _)).
    destruct (decide (j ∈ floatingElements st)); [|done].
    destruct (doc !! j); simpl; [by rewrite parallaxElement_idem | done].
  - intros j Hj. rewrite (L j (parallaxElement_idem _)).
    by rewrite decide_False.
  - intros j. rewrite (L j (parallaxElement_idem _)).
    destruct (decide _); [|done]. by destruct (doc !! j).
  - intros j. rewrite (L j (parallaxElement_idem _)).
    destruct (decide _); [|done]. by destruct (doc !! j).
  - intros j prop Hp. rewrite (L j (parallaxElement_idem _)).
    destruct (decide _); [|done]. destruct (doc !! j); [|done]. simpl.
    by rewrite lookup_insert_ne.
Qed.


Lemma toString_tenth : toString 0.1 = lit "0.1".
Proof. vm_compute. reflexivity. Qed.

Lemma parseFloat_tenth : parseFloat (lit "0.1") = 0.1%float.
Proof. vm_compute. reflexivity. Qed.

(** X9.  After [setupFloatingElements] every listed element has a
    non-empty [data-speed]: the one it had, or "0.1" when it had none or
    an empty one, in which case the parallax speed is 0.1.  Classes and
    style are untouched, and running the set-up again changes nothing. *)
Theorem setupFloatingElements_fills_in_speed
    (st : State) (doc : Document) (i : nat) (el : Element) :
  i ∈ floatingElements st →
  doc !! i = Some el →
  ∃ el' s,
    setupFloatingElements st doc !! i = Some el'
    ∧ dataset el' !! speed = Some s
    ∧ s ≠ []
    ∧ (dataset el !! speed = Some s
       ∨ (s = lit "0.1" ∧ parallaxSpeed el' = 0.1%float
          ∧ (dataset el !! speed = None ∨ dataset el !! speed = Some [])))
    ∧ classList el' = classList el
    ∧ style el' = style el
    ∧ setupFloatingElements st (setupFloatingElements st doc)
      = setupFloatingElements st doc.
Proof.
  intros Hin Hel.
  pose (value := fun el : Element =>
          match dataset el !! speed with
          | Some s => if JSString.truthy s then s else lit "0.1"
          | None => lit "0.1"
          end).
  pose (g := fun el : Element => set_data speed (value el) el).
  assert (Hv : ∀ e, value e ≠ []).
  { intros e. unfold value. by destruct (dataset e !! speed) as [[|c s]|]. }
  assert (Hg : ∀ e, g (g e) = g e).
  { intros e. unfold g, set_data, value.
    cbn [dataset classList style]. rewrite lookup_insert_eq, insert_insert_eq.
    destruct (dataset e !! speed) as [[|c s]|]; reflexivity. }
  assert (L : ∀ j (d : Document),
            setupFloatingElements st d !! j
            = if decide (j ∈ floatingElements st) then g <$> d !! j else d !! j).
  { intros j d. unfold setupFloatingElements.
    rewrite <- (forEach_alter_lookup g (floatingElements st) j Hg).
    unfold setupFloatingElement. rewrite toString_tenth. reflexivity. }
  exists (g el), (value el).
  split; [by rewrite L, decide_True, Hel|].
  split; [unfold g, set_data; cbn [dataset]; by rewrite lookup_insert_eq|].
  split; [apply Hv|].
  split.
  { assert (Hs : value el = lit "0.1" → parallaxSpeed (g el) = 0.1%float).
    { intros E. unfold parallaxSpeed, parsedSpeed, g, set_data.
      cbn [dataset]. rewrite lookup_insert_eq, E.
      change (default (lit "undefined") (Some (lit "0.1"))) with (lit "0.1").
      rewrite parseFloat_tenth. reflexivity. }
    unfold value in *.
    destruct (dataset el !! speed) as [[|c s]|] eqn:E.
    - right. split; [reflexivity|]. split; [by apply Hs | by right].
    - by left.
    - right. split; [reflexivity|]. split; [by apply Hs | by left]. }
  split; [done|]. split; [done|].
  apply map_eq. intros j. rewrite !L.
  destruct (decide _); [|done].
  destruct (doc !! j); simpl; [by rewrite Hg | done].
Qed.

Lemma setupFloatingElements_fills_in_speed_witness :
  ∃ el' s, setupFloatingElements floating_manager (floating_page []) !! 0%nat
           = Some el'
           ∧ dataset el' !! speed = Some s ∧ s ≠ [].
Proof.
  destruct (setupFloatingElements_fills_in_speed floating_manager
              (floating_page []) 0%nat
              (mkElement [lit "floating-element"] {[ speed := [] ]} ∅))
    as (el' & s & Hl & Hd & Hne & _).
  - apply list_elem_of_here.
  - reflexivity.
  - by exists el', s.
Defined.

(** X10.  At most one scroll is handled per animation frame: of a burst of
    scroll events with no frame in between only the first has any effect,
    and after the frame callback the next scroll is handled again. *)
Theorem handleScroll_once_per_frame
    (w : Window) (ws : list Window) (sd : State * Document) :
  run (map Scroll (w :: ws)) sd = handleScroll w sd
  ∧ (isAnimating sd.1 = false →
     isAnimating (handleScroll w sd).1 = true
     ∧ (handleScroll w sd).2
       = checkForNewAnimations w sd.1 (updateParallax w sd.1 sd.2))
  ∧ isAnimating (run (map Scroll (w :: ws) ++ [Frame]) sd).1 = false.
Proof.
  assert (Hdrop : ∀ ws' s, isAnimating s.1 = true →
                    run (map Scroll ws') s = s).
  { clear. induction ws' as [|w' ws' IH]; intros [st doc] H; [done|].
    unfold run in *. simpl in *. rewrite H. by apply IH. }
  assert (Hanim : isAnimating (handleScroll w sd).1 = true).
  { destruct sd as [st doc]. simpl. by destruct (isAnimating st) eqn:E. }
  assert (Hfirst : run (map Scroll (w :: ws)) sd = handleScroll w sd).
  { exact (Hdrop ws (handleScroll w sd) Hanim). }
  split; [exact Hfirst|]. split.
  - destruct sd as [st doc]. simpl. by intros ->.
  - assert (E : run (map Scroll (w :: ws) ++ [Frame]) sd
                = step (run (map Scroll (w :: ws)) sd) Frame)
      by apply foldl_snoc.
    rewrite E, Hfirst. simpl. by destruct (handleScroll w sd).
Qed.

Lemma handleScroll_once_per_frame_witness :
  isAnimating (handleScroll (scrolled_to 100)
                 (floating_manager, floating_page (lit "0.5"))).1 = true.
Proof.
  destruct (handleScroll_once_per_frame (scrolled_to 100) []
              (floating_manager, floating_page (lit "0.5")))
    as (_ & H & _).
  apply H. reflexivity.
Defined.

End ParallaxMore.

(** ** Validation and submission, further *)

Section FormsMore.
Import Regex FormManager FormLifecycle Examples.

Local Arguments lit : simpl never.
Local Arguments clearInputError : simpl never.
Local Arguments showInputError : simpl never.
Local Arguments validateInput : simpl never.

Lemma contains_remove token el :
  contains token (classList_remove token el) = false.
Proof.
  unfold contains, classList_remove. simpl. apply bool_decide_eq_false.
  intros H%list_elem_of_filter. by destruct H.
Qed.

Lemma validateInput_accepts i e : (validateInput i e).1 = accepts i.
Proof. unfold accepts. by rewrite !validateInput_verdict. Qed.

(** Validation changes the element of a control only, and leaves the
    class [error] on it exactly when it rejects the control. *)
Lemma validateInput_control i e :
  properties (validateInput i e).2.1 = properties i
  ∧ contains error (node (validateInput i e).2.1) = negb (validateInput i e).1.
Proof.
  unfold validateInput, showInputError, clearInputError.
  cbn [fst snd parentNode with_node node].
  destruct (required i && _).
  - cbn [fst snd node with_node]. split; [done|].
    unfold contains, set_style. cbn [classList].
    apply (contains_add error).
  - destruct (strict_eq _ _ && _); [destruct (negb _)|].
    + cbn [fst snd node with_node]. split; [done|].
      unfold contains, set_style. cbn [classList].
      apply (contains_add error).
    + cbn [fst snd node with_node]. split; [done|].
      unfold clear_style, contains. cbn [classList].
      apply (contains_remove error).
    + cbn [fst snd node with_node]. split; [done|].
      unfold clear_style, contains. cbn [classList].
      apply (contains_remove error).
Qed.

Lemma validateInputs_controls ins : ∀ e,
  (validateInputs ins e).1 = forallb accepts ins
  ∧ Forall2 (fun i i' => properties i' = properties i
                         ∧ contains error (node i') = negb (accepts i))
      ins (validateInputs ins e).2.1.
Proof.
  induction ins as [|i ins IH]; intros e; simpl.
  - split; [done | constructor].
  - pose proof (validateInput_control i e) as [Hp Hc].
    pose proof (validateInput_accepts i e) as Ha.
    destruct (validateInput i e) as [ok [i' e1]].
    destruct (IH e1) as [Hok Hall].
    destruct (validateInputs ins e1) as [oks [ins' e2]].
    simpl in *. subst. split; [done|]. constructor; [|done].
    split; [exact Hp | exact Hc].
Qed.

(** X11.  [validateForm] validates every control, whatever the earlier
    ones gave: the form is valid exactly when each control is acceptable
    on its own, and afterwards each control carries the class [error]
    exactly when it is not; nothing else of a control changes but its
    style. *)
Theorem validateForm_flags_every_invalid_control (st : State) :
  (validateForm st).1 = forallb accepts (formInputs st)
  ∧ length (formInputs (validateForm st).2) = length (formInputs st)
  ∧ ∀ k i,
      formInputs st !! k = Some i →
      ∃ i', formInputs (validateForm st).2 !! k = Some i'
            ∧ properties i' = properties i
            ∧ contains error (node i') = negb (accepts i).
Proof.
  unfold validateForm.
  destruct (validateInputs_controls (formInputs st) (errors st)) as [Hok Hall].
  destruct (validateInputs _ _) as [ok [ins e]]. simpl in *.
  split; [exact Hok|]. split; [symmetry; by eapply Forall2_length|].
  intros k i Hk.
  destruct (Forall2_lookup_l _ _ _ _ _ Hall Hk) as (i' & Hk' & Hp & Hc).
  eauto.
Qed.

(** X12.  A form with a control that is not acceptable is not submitted:
    the call flags the controls and returns; no submission starts, the
    flag stays clear and the button is not touched. *)
Theorem invalid_form_is_not_submitted (st : State) (k : nat) (i : Input) :
  isSubmitting st = false →
  formInputs st !! k = Some i →
  accepts i = false →
  handleFormSubmission st = (validateForm st).2
  ∧ guard (handleFormSubmission st) = (false, inFlight st)
  ∧ submitButton (handleFormSubmission st) = submitButton st
  ∧ ∃ i', formInputs (handleFormSubmission st) !! k = Some i'
          ∧ contains error (node i') = true.
Proof.
  intros Hs Hk Ha.
  destruct (validateForm_flags_every_invalid_control st) as (Hok & _ & Hall).
  assert (Hv : (validateForm st).1 = false).
  { rewrite Hok. apply not_true_is_false. intros Hall'.
    rewrite forallb_forall in Hall'.
    rewrite (Hall' i) in Ha; [done|].
    apply list_elem_of_In, list_elem_of_lookup. eauto. }
  assert (E : handleFormSubmission st = (validateForm st).2).
  { unfold handleFormSubmission. rewrite Hs.
    destruct (validateForm st) as [ok st1]. simpl in Hv |- *. by rewrite Hv. }
  rewrite E. split; [done|]. split.
  - rewrite guard_validateForm. unfold guard. by rewrite Hs.
  - split.
    + unfold validateForm. by destruct (validateInputs _ _) as [ok [ins e]].
    + destruct (Hall k i Hk) as (i' & Hk' & _ & Hc).
      exists i'. split; [exact Hk'|]. by rewrite Hc, Ha.
Qed.

Lemma invalid_form_is_not_submitted_witness :
  guard (handleFormSubmission
           (contact_page (Some submit_button)
              [control (lit "email") true (lit "a@b.co");
               control (lit "email") true (lit "a@b")]))
  = (false, 0%nat).
Proof.
  destruct (invalid_form_is_not_submitted
              (contact_page (Some submit_button)
                 [control (lit "email") true (lit "a@b.co");
                  control (lit "email") true (lit "a@b")])
              1%nat (control (lit "email") true (lit "a@b")))
    as (_ & H & _); [reflexivity | reflexivity | reflexivity | exact H].
Defined.

Lemma tidy_messagesAt e : tidy e ↔ ∀ p, (length (messagesAt e p) ≤ 1)%nat.
Proof.
  unfold tidy, messagesAt. split.
  - intros H p. destruct (e !! p) as [msgs|] eqn:E; simpl; [eauto | lia].
  - intros H p msgs E. specialize (H p). by rewrite E in H.
Qed.

Lemma clearInputError_messages i e p :
  messagesAt (clearInputError i e).2 p
  = if decide (p = parentNode i) then tail (messagesAt e p) else messagesAt e p.
Proof.
  unfold clearInputError, messagesAt. cbn [snd].
  destruct (decide (p = parentNode i)) as [->|Hne].
  - destruct (e !! parentNode i) as [[|m rest]|] eqn:E; rewrite ?E; try done.
    by rewrite lookup_insert_eq.
  - destruct (e !! parentNode i) as [[|m rest]|]; try done.
    by rewrite lookup_insert_ne.
Qed.

Lemma clearInputError_parent i e : parentNode (clearInputError i e).1 = parentNode i.
Proof. done. Qed.

Lemma showInputError_messages message i e p :
  messagesAt (showInputError message i e).2 p
  = if decide (p = parentNode i)
    then tail (messagesAt e p) ++ [message] else messagesAt e p.
Proof.
  unfold showInputError.
  pose proof (clearInputError_messages i e) as Hc.
  destruct (clearInputError i e) as [i1 e1]. cbn [snd] in *.
  unfold messagesAt in *.
  destruct (decide (p = parentNode i)) as [->|Hne].
  - rewrite lookup_insert_eq. simpl. specialize (Hc (parentNode i)).
    rewrite decide_True in Hc by done. by rewrite Hc.
  - rewrite lookup_insert_ne by done. specialize (Hc p).
    by rewrite decide_False in Hc.
Qed.

Lemma validateInput_messages i e p :
  messagesAt (validateInput i e).2.2 p = messagesAt e p
  ∨ (length (messagesAt (validateInput i e).2.2 p)
     ≤ Nat.max 1 (length (messagesAt e p) - 1))%nat.
Proof.
  unfold validateInput.
  pose proof (clearInputError_messages i e p) as Hc.
  pose proof (clearInputError_parent i e) as Hp.
  destruct (clearInputError i e) as [i1 e1]. cbn [fst snd] in *.
  assert (Hshow : ∀ m,
            (length (messagesAt (showInputError m i1 e1).2 p)
             ≤ Nat.max 1 (length (messagesAt e p) - 1))%nat
            ∨ messagesAt (showInputError m i1 e1).2 p = messagesAt e p).
  { intros m. rewrite showInputError_messages, Hp, Hc.
    destruct (decide (p = parentNode i)); [left | by right].
    rewrite length_app. simpl.
    destruct (messagesAt e p) as [|a [|b r]]; simpl; lia. }
  assert (Hclear : (length (messagesAt e1 p)
                    ≤ Nat.max 1 (length (messagesAt e p) - 1))%nat
                   ∨ messagesAt e1 p = messagesAt e p).
  { rewrite Hc. destruct (decide (p = parentNode i)); [left | by right].
    destruct (messagesAt e p) as [|a r]; simpl; lia. }
  destruct (required i && _); cbn [fst snd].
  - destruct (Hshow (lit "This field is required")); auto.
  - destruct (strict_eq _ _ && _); [destruct (negb _)|]; cbn [fst snd].
    + destruct (Hshow (lit "Please enter a valid email address")); auto.
    + destruct Hclear; auto.
    + destruct Hclear; auto.
Qed.

Lemma validateInput_tidy i e : tidy e → tidy (validateInput i e).2.2.
Proof.
  rewrite !tidy_messagesAt. intros H p. specialize (H p).
  destruct (validateInput_messages i e p) as [-> | Hle]; lia.
Qed.

Lemma clearInputError_tidy i e : tidy e → tidy (clearInputError i e).2.
Proof.
  rewrite !tidy_messagesAt. intros H p. specialize (H p).
  rewrite clearInputError_messages. destruct (decide _); [|done].
  destruct (messagesAt e p); simpl in *; lia.
Qed.

Lemma validateInputs_tidy ins : ∀ e, tidy e → tidy (validateInputs ins e).2.2.
Proof.
  induction ins as [|i ins IH]; intros e H; simpl; [done|].
  pose proof (validateInput_tidy i e H) as H1.
  destruct (validateInput i e) as [ok [i' e1]]. simpl in H1.
  specialize (IH e1 H1).
  by destruct (validateInputs ins e1) as [oks [ins' e2]].
Qed.

Lemma resetInputs_cons i ins e :
  resetInputs (i :: ins) e
  = ((with_node (fun el => set_style borderColor (lit "transparent")
                             (set_style transform (lit "scale(1)") el))
        (clearInputError i e).1)
     :: (resetInputs ins (clearInputError i e).2).1,
     (resetInputs ins (clearInputError i e).2).2).
Proof.
  cbn [resetInputs]. destruct (clearInputError i e) as [i1 e1]. cbn [fst snd].
  by destruct (resetInputs ins e1).
Qed.

Lemma resetInputs_tidy ins : ∀ e, tidy e → tidy (resetInputs ins e).2.
Proof.
  induction ins as [|i ins IH]; intros e H; [done|].
  rewrite resetInputs_cons. cbn [snd].
  by apply IH, clearInputError_tidy.
Qed.

Lemma errors_updateSubmitButton text d st :
  errors (updateSubmitButton text d st) = errors st.
Proof. unfold updateSubmitButton. by destruct (submitButton st). Qed.

Lemma step_tidy st ev : tidy (errors st) → tidy (errors (step st ev)).
Proof.
  intros H. destruct ev as [| |k|k|k v|]; simpl.
  - unfold handleFormSubmission. destruct (isSubmitting st); [done|].
    unfold validateForm.
    pose proof (validateInputs_tidy (formInputs st) (errors st) H) as H1.
    destruct (validateInputs _ _) as [ok [ins e]]. simpl in H1.
    destruct ok; simpl; [|done].
    by rewrite errors_updateSubmitButton.
  - unfold resume. destruct (inFlight st) as [|n]; [done|].
    unfold finallyBlock. rewrite errors_updateSubmitButton. simpl.
    unfold tryBlock, showSuccessMessage.
    destruct (submitButton (updateSubmitButton _ _ _)) eqn:Eb; simpl.
    + unfold resetForm. simpl. destruct (contactForm _); simpl.
      * rewrite errors_updateSubmitButton. simpl.
        pose proof (resetInputs_tidy
                      (map (fun i => if inForm i then with_value (defaultValue i) i
                                     else i)
                         (formInputs (updateSubmitButton (lit "Message Sent!") true
                                        (set_inFlight n st))))
                      (errors st) H) as H1.
        by destruct (resetInputs _ _) as [ins e].
      * by rewrite errors_updateSubmitButton.
    + by rewrite errors_updateSubmitButton.
  - unfold update_input. by destruct (formInputs st !! k).
  - unfold update_input. destruct (formInputs st !! k) as [i|]; [|done].
    pose proof (validateInput_tidy (animateInput false i) (errors st) H) as H1.
    by destruct (validateInput _ _) as [ok [i' e]].
  - unfold update_input. destruct (formInputs st !! k) as [i|]; [|done].
    pose proof (clearInputError_tidy (with_value v i) (errors st) H) as H1.
    by destruct (clearInputError _ _) as [i' e].
  - destruct (resetTimers st); [done|]. by rewrite errors_updateSubmitButton.
Qed.

(** X13.  Error messages do not pile up: on a page where every parent
    node shows at most one error message, that stays so through every
    sequence of submit, timer, focus, blur and input events. *)
Theorem error_messages_do_not_pile_up
    (form : bool) (button : option Button) (inputs : list Input)
    (e : Errors) (notes : list jsstring) (evs : list Event) :
  tidy e →
  tidy (errors (run evs (constructor form button inputs e notes))).
Proof.
  intros H.
  assert (G : ∀ evs st, tidy (errors st) → tidy (errors (run evs st))).
  { clear. induction evs as [|ev evs IH]; intros st H; [done|].
    unfold run in *. simpl. by apply IH, step_tidy. }
  by apply G.
Qed.

Lemma error_messages_do_not_pile_up_witness :
  tidy (errors (run [Blur 0; Submit; Blur 0; Typed 0 (lit "x"); Blur 0]
                  (contact_page (Some submit_button)
                     [control (lit "email") true (lit "a@b")]))).
Proof.
  apply (error_messages_do_not_pile_up true (Some submit_button)
           [control (lit "email") true (lit "a@b")] ∅ []).
  intros p msgs E. rewrite lookup_empty in E. discriminate E.
Defined.

Lemma resetInputs_controls ins : ∀ e,
  Forall2 (fun i i' =>
             properties i' = properties i
             ∧ contains error (node i') = false
             ∧ style (node i') !! borderColor = Some (lit "transparent")
             ∧ style (node i') !! transform = Some (lit "scale(1)"))
    ins (resetInputs ins e).1.
Proof.
  induction ins as [|i ins IH]; intros e; [constructor|].
  rewrite resetInputs_cons. cbn [fst]. constructor; [|apply IH].
  unfold clearInputError. cbn [fst with_node node].
  split; [done|]. split.
  - unfold set_style, clear_style, contains. cbn [classList].
    apply (contains_remove error).
  - unfold set_style. cbn [style]. split.
    + by rewrite lookup_insert_eq.
    + rewrite lookup_insert_ne by (vm_compute; discriminate).
      by rewrite lookup_insert_eq.
Qed.

(** X14.  A submission of a valid form on a page with the form and its
    button runs its course: while it is in flight the button is disabled
    and reads "Sending..."; when the timer fires the flag is cleared, the
    button is enabled and reads "Send Message" again at once, one 2 s
    button timer is pending, no failure is reported, and every control
    of the form is back at its default value without the [error] class
    and with a transparent border. *)
Theorem successful_submission_resets_the_form (st : State) (b : Button) :
  contactForm st = true →
  submitButton st = Some b →
  isSubmitting st = false →
  forallb accepts (formInputs st) = true →
  let st1 := step st Submit in
  let st2 := step st1 TimerFired in
  guard st1 = (true, S (inFlight st))
  ∧ (∃ b1, submitButton st1 = Some b1 ∧ disabled b1 = true
           ∧ buttonText b1 = (buttonText b ≫= fun _ => Some (lit "Sending...")))
  ∧ guard st2 = (false, inFlight st)
  ∧ (∃ b2, submitButton st2 = Some b2 ∧ disabled b2 = false
           ∧ buttonText b2 = (buttonText b ≫= fun _ => Some (lit "Send Message")))
  ∧ notifications st2 = notifications st
  ∧ consoleErrors st2 = consoleErrors st
  ∧ resetTimers st2 = S (resetTimers st)
  ∧ ∀ k i,
      formInputs st !! k = Some i →
      ∃ i', formInputs st2 !! k = Some i'
            ∧ value i' = (if inForm i then defaultValue i else value i)
            ∧ contains error (node i') = false
            ∧ style (node i') !! borderColor = Some (lit "transparent").
Proof.
  intros Hf Hb Hs Hok st1 st2.
  destruct st as [cf sb ins e sub fl rt notes ce]. simpl in Hf, Hb, Hs, Hok.
  subst cf sb sub.
  destruct (validateInputs_controls ins e) as [Hv Hall].
  rewrite Hok in Hv.
  assert (E1 : st1 = mkState true
                 (Some (mkButton (buttonText b ≫= fun _ => Some (lit "Sending..."))
                          true
                          (<[background := lit "linear-gradient(90deg, #666, #999)"]>
                             (buttonStyle b))))
                 (validateInputs ins e).2.1 (validateInputs ins e).2.2
                 true (S fl) rt notes ce).
  { unfold st1, step, handleFormSubmission, validateForm.
    cbn [isSubmitting formInputs errors].
    destruct (validateInputs ins e) as [ok [ins1 e1]]. cbn [fst snd] in *.
    subst ok. cbn. by destruct (buttonText b). }
  set (restored := map (fun i => if inForm i then with_value (defaultValue i) i else i)
                     (validateInputs ins e).2.1).
  pose proof (resetInputs_controls restored (validateInputs ins e).2.2) as Hreset.
  assert (E2 : ∃ style2,
            st2 = mkState true
                    (Some (mkButton
                             (buttonText b ≫= fun _ => Some (lit "Send Message"))
                             false style2))
                    (resetInputs restored (validateInputs ins e).2.2).1
                    (resetInputs restored (validateInputs ins e).2.2).2
                    false fl (S rt) notes ce).
  { unfold st2. rewrite E1. unfold step, resume. cbn [inFlight].
    unfold tryBlock, showSuccessMessage, updateSubmitButton, set_inFlight.
    cbn [submitButton buttonText buttonStyle set_button contactForm formInputs
         errors isSubmitting inFlight resetTimers notifications consoleErrors
         set_resetTimers disabled].
    unfold resetForm.
    cbn [submitButton buttonText buttonStyle set_button contactForm formInputs
         errors isSubmitting inFlight resetTimers notifications consoleErrors
         set_inputs].
    cbn -[lit]. fold restored.
    destruct (resetInputs restored (validateInputs ins e).2.2) as [ins2 e2].
    unfold finallyBlock, catchBlock, updateSubmitButton. cbn -[lit].
    eexists. destruct (buttonText b); reflexivity. }
  destruct E2 as [style2 E2].
  rewrite E1, E2. cbn [guard isSubmitting inFlight submitButton notifications
                       consoleErrors resetTimers formInputs].
  split; [done|]. split; [eauto|]. split; [done|]. split; [eauto|].
  split; [done|]. split; [done|]. split; [done|].
  intros k i Hk.
  destruct (Forall2_lookup_l _ _ _ _ _ Hall Hk) as (i1 & Hk1 & Hp1 & _).
  assert (Hk2 : restored !! k
                = Some (if inForm i1 then with_value (defaultValue i1) i1 else i1)).
  { unfold restored. by rewrite list_lookup_fmap, Hk1. }
  destruct (Forall2_lookup_l _ _ _ _ _ Hreset Hk2) as (i2 & Hk3 & Hp2 & Hc & Hbc & _).
  exists i2. split; [exact Hk3|]. split; [|done].
  unfold properties in *.
  injection Hp1 as Hv1 Hd1 _ _ _ Hi1.
  rewrite <- Hi1, <- Hd1, <- Hv1.
  destruct (inForm i1); unfold with_value in Hp2;
    cbn [value defaultValue type required parentNode inForm] in Hp2;
    by injection Hp2.
Qed.

Lemma successful_submission_resets_the_form_witness :
  value <$> formInputs
              (run [Typed 0 (lit "someone@example.org"); Submit; TimerFired]
                 (contact_page (Some submit_button)
                    [control (lit "email") true (lit "")]))
  = [lit ""].
Proof.
  pose (st := step (contact_page (Some submit_button)
                      [control (lit "email") true (lit "")])
                (Typed 0 (lit "someone@example.org"))).
  destruct (successful_submission_resets_the_form st submit_button)
    as (_ & _ & _ & _ & _ & _ & _ & H);
    [reflexivity | reflexivity | reflexivity | reflexivity |].
  destruct (H 0%nat (control (lit "email") true (lit "someone@example.org")))
    as (i' & Hk & Hv & _); [reflexivity|].
  change (run [Typed 0 (lit "someone@example.org"); Submit; TimerFired]
            (contact_page (Some submit_button)
               [control (lit "email") true (lit "")]))
    with (step (step st Submit) TimerFired).
  destruct (formInputs (step (step st Submit) TimerFired)) as [|a [|c r]] eqn:E;
    try (vm_compute in E; discriminate E).
  simpl in Hk. injection Hk as ->. simpl. by rewrite Hv.
Defined.


(** X15.  [destroy] reopens the submission guard and takes the button
    away: a call of [handleFormSubmission] after it starts a submission
    even while an earlier one is still in flight, and a submission that is
    in flight when [destroy] runs ends in the [catch] branch, with the
    failure notification, when its timer fires. *)
Theorem destroy_reopens_the_submission_guard (st : State) (n : nat) :
  inFlight st = S n →
  guard (handleFormSubmission (destroy st)) = (true, S (S n))
  ∧ guard (resume (destroy st)) = (false, n)
  ∧ notifications (resume (destroy st))
    = notifications st ++ [lit "Failed to send message. Please try again."]
  ∧ consoleErrors (resume (destroy st)) = S (consoleErrors st).
Proof.
  intros E. unfold destroy, handleFormSubmission, resume.
  cbn [isSubmitting inFlight]. rewrite E. by cbn -[lit].
Qed.

Lemma destroy_reopens_the_submission_guard_witness :
  inFlight
    (run [Submit]
       (destroy
          (run [Submit]
             (contact_page (Some submit_button)
                [control (lit "email") true (lit "a@b.co")]))))
  = 2%nat.
Proof.
  destruct (destroy_reopens_the_submission_guard
              (run [Submit]
                 (contact_page (Some submit_button)
                    [control (lit "email") true (lit "a@b.co")])) 0)
    as [H _]; [reflexivity|].
  exact (f_equal snd H).
Defined.

End FormsMore.

(** ** File selection *)

Section FileUploadFacts.
Import JSNumber FormManager FileUpload Examples.

Local Arguments lit : simpl never.

Lemma startsWith_Some p : ∀ s rest, startsWith p s = Some rest ↔ s = p ++ rest.
Proof.
  induction p as [|a p IH]; intros s rest; simpl.
  - split; [by intros [= ->] | by intros ->].
  - destruct s as [|c s]; [done|].
    destruct (N.eqb_spec a c) as [->|Hne].
    + rewrite IH. split; [by intros -> | by intros [= ->]].
    + split; [done | intros [= -> _]; done].
Qed.

Lemma startsWith_prefix_iff p s :
  (match startsWith p s with Some _ => true | None => false end) = true
  ↔ ∃ rest, s = p ++ rest.
Proof.
  destruct (startsWith p s) as [rest|] eqn:E.
  - apply startsWith_Some in E. split; [eauto | done].
  - split; [done|]. intros [rest Hr]. apply startsWith_Some in Hr. congruence.
Qed.

Lemma removeFirst_wildcard prefix :
  47%N ∉ prefix → removeFirst (lit "/*") (prefix ++ lit "/*") = prefix.
Proof.
  induction prefix as [|c prefix IH]; intros H; [reflexivity|].
  assert (c ≠ 47%N) by (intros ->; apply H; left).
  assert (47%N ∉ prefix) by (intros ?; apply H; by right).
  change (removeFirst (lit "/*") ((c :: prefix) ++ lit "/*"))
    with (match (if (47 =? c)%N then startsWith (lit "*") (prefix ++ lit "/*")
                 else None) with
          | Some rest => rest
          | None => c :: removeFirst (lit "/*") (prefix ++ lit "/*")
          end).
  destruct (N.eqb_spec 47 c); [congruence|]. by rewrite IH.
Qed.

Lemma endsWith_wildcard prefix : endsWith (lit "/*") (prefix ++ lit "/*") = true.
Proof.
  unfold endsWith. rewrite rev_app_distr.
  change (rev (lit "/*")) with ([42; 47]%N). simpl.
  by destruct (rev prefix).
Qed.

(** X16.  An allowed type that ends in [/*] admits every file whose type
    begins with what stands before the [/*] (the slash is not asked for:
    "image/*" admits "imagery/x"); any other allowed type admits exactly
    the files of that very type. *)
Theorem file_type_patterns (file : File) (pattern prefix : jsstring) :
  (pattern = prefix ++ lit "/*" → 47%N ∉ prefix →
   (typeAllowedBy file pattern = true ↔ ∃ rest, fileType file = prefix ++ rest))
  ∧ (endsWith (lit "/*") pattern = false →
     (typeAllowedBy file pattern = true ↔ fileType file = pattern)).
Proof.
  split.
  - intros -> Hp. unfold typeAllowedBy.
    rewrite endsWith_wildcard, removeFirst_wildcard by done.
    apply startsWith_prefix_iff.
  - intros He. unfold typeAllowedBy, strict_eq. rewrite He.
    apply bool_decide_eq_true.
Qed.

Lemma file_type_patterns_witness :
  typeAllowedBy (mkFile 10 (lit "imagery/x")) (lit "image/*") = true
  ∧ typeAllowedBy (mkFile 10 (lit "image/png")) (lit "image/jpeg") = false.
Proof.
  destruct (file_type_patterns (mkFile 10 (lit "imagery/x")) (lit "image/*")
              (lit "image")) as [Hw _].
  destruct (file_type_patterns (mkFile 10 (lit "image/png")) (lit "image/jpeg")
              []) as [_ He].
  split.
  - apply Hw; [reflexivity | vm_compute; set_solver |].
    by exists (lit "ry/x").
  - apply not_true_is_false. intros H. apply He in H; [|reflexivity].
    vm_compute in H. discriminate H.
Defined.

Lemma default_size_text : toString (5 * 1024 * 1024 / 1024 / 1024) = lit "5".
Proof. vm_compute. reflexivity. Qed.

(** X17.  With the default options a chosen file over 5 MiB is refused
    with "File size must be less than 5MB", whatever its type; a file
    within the limit is taken exactly when its type begins with "image",
    and is otherwise refused with "File type not allowed".  Taking a file
    leaves the input and the messages as they are (an earlier error
    message stays) and calls [onSelect] when one was given. *)
Theorem file_selection_with_default_options
    (file : File) (given : bool) (fileInput : Input) (e : Errors) :
  let outcome := onChange (mkOptions None None given) (Some file) fileInput e in
  ((5242880 <? size file)%float = true →
     outcome
     = (showInputError (lit "File size must be less than 5MB") fileInput e, None))
  ∧ ((5242880 <? size file)%float = false →
     (∃ rest, fileType file = lit "image" ++ rest) →
     outcome = ((fileInput, e), if given then Some file else None))
  ∧ ((5242880 <? size file)%float = false →
     (¬ ∃ rest, fileType file = lit "image" ++ rest) →
     outcome = (showInputError (lit "File type not allowed") fileInput e, None)).
Proof.
  intros outcome.
  destruct (file_type_patterns file (lit "image/*") (lit "image")) as [Hw _].
  specialize (Hw eq_refl).
  assert (H47 : 47%N ∉ lit "image") by (vm_compute; set_solver).
  specialize (Hw H47).
  unfold outcome, onChange.
  cbn [maxSize allowedTypes onSelect default existsb].
  change (5 * 1024 * 1024)%float with 5242880%float.
  split; [|split].
  - intros ->.
    change (5242880 / 1024 / 1024)%float with (5 * 1024 * 1024 / 1024 / 1024)%float.
    by rewrite default_size_text.
  - intros -> Hi. apply Hw in Hi. by rewrite Hi.
  - intros -> Hn.
    destruct (typeAllowedBy file (lit "image/*")) eqn:Et; [|done].
    exfalso. apply Hn, Hw. done.
Qed.

Lemma file_selection_with_default_options_witness :
  (onChange (mkOptions None None true)
     (Some (mkFile 6000000 (lit "image/png")))
     (control (lit "file") false []) ∅).2 = None.
Proof.
  destruct (file_selection_with_default_options
              (mkFile 6000000 (lit "image/png")) true
              (control (lit "file") false []) ∅) as [H _].
  rewrite H; reflexivity.
Defined.

End FileUploadFacts.

(** ** Debounced and throttled listeners *)

Section TimingFacts.
Import Timing.
Context {A S : Type} (func : A → S → S).

Lemma clearTimeout_delete (t : option nat) (id : nat) (ts : gmap nat A) :
  clearTimeout t (delete id ts) = delete id (clearTimeout t ts).
Proof. destruct t as [i|]; [apply delete_delete | done]. Qed.

(** Of the timers the closure has set, only the one in [timeout] can
    still be waiting. *)
Lemma executedFunction_one_timer (a : A) (id : nat) (d : Debounced A) :
  clearTimeout (timeout d) (timers d) = ∅ →
  executedFunction a id d = mkDebounced (Some id) {[id := a]}.
Proof. intros H. unfold executedFunction. by rewrite H. Qed.

Lemma later_one_timer (id : nat) (ds : Debounced A * S) :
  clearTimeout (timeout ds.1) (timers ds.1) = ∅ →
  clearTimeout (timeout (later func id ds).1) (timers (later func id ds).1) = ∅.
Proof.
  intros H. unfold later. destruct (timers ds.1 !! id); [|done]. simpl.
  rewrite clearTimeout_delete, H, delete_empty.
  by destruct (timeout ds.1).
Qed.

Lemma one_timer_waiting (a : A) (id : nat) :
  clearTimeout (Some id) ({[id := a]} : gmap nat A) = ∅.
Proof. simpl. apply delete_singleton_eq. Qed.

Lemma debounce_one_timer (evs : list (DebounceEvent A)) :
  ∀ ds : Debounced A * S,
    clearTimeout (timeout ds.1) (timers ds.1) = ∅ →
    clearTimeout (timeout (debounceRun func evs ds).1)
      (timers (debounceRun func evs ds).1) = ∅.
Proof.
  induction evs as [|ev evs IH]; intros ds H; [done|].
  unfold debounceRun in *. simpl. apply IH.
  destruct ev as [a id|id]; cbn [debounceStep fst snd].
  - rewrite executedFunction_one_timer by done. apply one_timer_waiting.
  - by apply later_one_timer.
Qed.

Lemma debounceRun_invokes (burst : list (A * nat)) :
  ∀ ds : Debounced A * S,
    (debounceRun func (map (fun c => Invoke c.1 c.2) burst) ds).2 = ds.2.
Proof.
  induction burst as [|c burst IH]; intros ds; [done|].
  unfold debounceRun in *. simpl. by rewrite IH.
Qed.

Lemma debounce_burst (evs : list (DebounceEvent A)) (burst : list (A * nat))
    (a : A) (id : nat) (ds : Debounced A * S) :
  clearTimeout (timeout ds.1) (timers ds.1) = ∅ →
  let before := debounceRun func evs ds in
  debounceRun func (map (fun c => Invoke c.1 c.2) burst ++ [Invoke a id]) before
  = (mkDebounced (Some id) {[id := a]}, before.2).
Proof.
  intros H before.
  unfold debounceRun at 1. rewrite foldl_app. simpl.
  fold (debounceRun func (map (fun c => Invoke c.1 c.2) burst) before).
  rewrite debounceRun_invokes. f_equal.
  unfold executedFunction. f_equal.
  assert (G : clearTimeout (timeout before.1) (timers before.1) = ∅)
    by by apply debounce_one_timer.
  pose proof (debounce_one_timer (map (fun c => Invoke c.1 c.2) burst) before G)
    as ->.
  done.
Qed.

Lemma later_the_timer (a : A) (id : nat) (s : S) :
  later func id (mkDebounced (Some id) {[id := a]}, s)
  = (mkDebounced (Some id) ∅, func a s).
Proof.
  unfold later. simpl. rewrite lookup_singleton_eq. simpl.
  by rewrite delete_singleton_eq, delete_empty.
Qed.

(** X18.  A debounced function runs once per burst, with the arguments
    of the last call: while calls follow each other with no timer firing
    in between the wrapped function is not called; after the burst one
    timer is waiting; when it fires the function is called with the
    arguments of the last call, and no other timer, earlier or later,
    has any effect. *)
Theorem debounce_runs_the_last_call_of_a_burst
    (evs : list (DebounceEvent A)) (burst : list (A * nat))
    (a : A) (id : nat) (s0 : S) :
  let before := debounceRun func evs (debounce s0) in
  let after :=
    debounceRun func (map (fun c => Invoke c.1 c.2) burst ++ [Invoke a id])
      before in
  after.2 = before.2
  ∧ timers after.1 = {[id := a]}
  ∧ (later func id after).2 = func a before.2
  ∧ (∀ id', id' ≠ id → later func id' after = after)
  ∧ (∀ id', later func id' (later func id after) = later func id after).
Proof.
  intros before after.
  assert (E : after = (mkDebounced (Some id) {[id := a]}, before.2))
    by by apply debounce_burst.
  rewrite E. split; [done|]. split; [done|].
  rewrite later_the_timer. split; [done|]. split.
  - intros id' Hne. unfold later. simpl. by rewrite lookup_singleton_ne.
  - intros id'. unfold later. simpl. by rewrite lookup_empty.
Qed.

Lemma throttled_one_timer (a : A) (ts : Throttled * S) :
  resets ts.1 = (if inThrottle ts.1 then 1 else 0)%nat →
  (throttled func a ts).1 = mkThrottled true 1
  ∧ (throttled func a ts).2
    = (if inThrottle ts.1 then ts.2 else func a ts.2).
Proof.
  destruct ts as [[flag n] s]. simpl. intros ->. unfold throttled. simpl.
  by destruct flag.
Qed.

Lemma resetThrottle_one_timer (ts : Throttled * S) :
  resets ts.1 = (if inThrottle ts.1 then 1 else 0)%nat →
  resetThrottle ts = (mkThrottled false 0, ts.2).
Proof.
  destruct ts as [[flag n] s]. simpl. intros ->. unfold resetThrottle. simpl.
  by destruct flag.
Qed.

Lemma throttle_one_timer (evs : list (ThrottleEvent A)) :
  ∀ ts : Throttled * S,
    resets ts.1 = (if inThrottle ts.1 then 1 else 0)%nat →
    resets (throttleRun func evs ts).1
    = (if inThrottle (throttleRun func evs ts).1 then 1 else 0)%nat.
Proof.
  induction evs as [|ev evs IH]; intros ts H; [done|].
  unfold throttleRun in *. simpl. apply IH.
  destruct ev as [a|]; cbn [throttleStep].
  - destruct (throttled_one_timer a ts H) as [-> _]. done.
  - by rewrite resetThrottle_one_timer.
Qed.

Lemma throttled_calls_dropped (burst : list A) (s : S) :
  throttleRun func (map Call burst) (mkThrottled true 1, s)
  = (mkThrottled true 1, s).
Proof.
  induction burst as [|b burst IH]; [done|].
  unfold throttleRun in *. simpl. exact IH.
Qed.

Lemma throttle_burst (evs : list (ThrottleEvent A)) (a : A) (burst : list A)
    (ts : Throttled * S) :
  resets ts.1 = (if inThrottle ts.1 then 1 else 0)%nat →
  let before := throttleRun func evs ts in
  throttleRun func (map Call (a :: burst)) before
  = (mkThrottled true 1,
     if inThrottle before.1 then before.2 else func a before.2).
Proof.
  intros H before.
  pose proof (throttle_one_timer evs ts H) as G. fold before in G.
  destruct before as [[flag n] s]. simpl in G.
  change (throttleRun func (map Call (a :: burst)) (mkThrottled flag n, s))
    with (throttleRun func (map Call burst)
            (throttled func a (mkThrottled flag n, s))).
  unfold throttled. simpl. destruct flag; simpl; subst n.
  - apply throttled_calls_dropped.
  - apply throttled_calls_dropped.
Qed.

(** X19.  A throttled function runs for the first call of a burst only:
    of calls that follow each other with no timer firing in between, the
    first is passed on unless the throttle was already engaged, and all
    later ones are dropped, their arguments with them; one timer is then
    waiting, and the first call after it has fired is passed on again. *)
Theorem throttle_runs_the_first_call_of_a_burst
    (evs : list (ThrottleEvent A)) (a : A) (burst : list A) (s0 : S) :
  let before := throttleRun func evs (throttle s0) in
  let after := throttleRun func (map Call (a :: burst)) before in
  after.2 = (if inThrottle before.1 then before.2 else func a before.2)
  ∧ after.1 = mkThrottled true 1
  ∧ ∀ b, throttleRun func [Reset; Call b] after
         = (mkThrottled true 1, func b after.2).
Proof.
  intros before after.
  assert (E : after
              = (mkThrottled true 1,
                 if inThrottle before.1 then before.2 else func a before.2))
    by by apply throttle_burst.
  rewrite E. done.
Qed.

End TimingFacts.

(** ** The navigation links *)

Section NavigationFacts.
Import JSNumber NavigationManager Samples.

Local Arguments lit : simpl never.












Lemma visitSection_fields layout pos sd id :
  let sd' := visitSection layout pos sd id in
  navLinks sd'.1 = navLinks sd.1 ∧ sections sd'.1 = sections sd.1
  ∧ isScrolling sd'.1 = isScrolling sd.1
  ∧ scrollTimers sd'.1 = scrollTimers sd.1.
Proof.
  destruct sd as [st doc]. unfold visitSection.
  destruct (covers _ _); [|done]. by destruct (negb _).
Qed.





Lemma default_last_cons (d x : jsstring) l :
  default d (last (x :: l)) = default x (last l).
Proof. rewrite last_cons. by destruct (last l). Qed.

Lemma visitSections_current boxes layout pos ids :
  (∀ d id, layout d id = boxes id) →
  ∀ sd,
    currentSection (foldl (visitSection layout pos) sd ids).1
    = default (currentSection sd.1)
        (last (List.filter (fun id => covers (boxes id) pos) ids)).
Proof.
  intros Hl. induction ids as [|id ids IH]; intros sd; [done|].
  simpl. rewrite IH. destruct sd as [st doc].
  unfold visitSection. rewrite Hl.
  destruct (covers (boxes id) pos); [|done].
  rewrite default_last_cons. unfold strict_eq.
  destruct (bool_decide_reflect (currentSection st = id)) as [E|E]; simpl;
    [by rewrite E | done].
Qed.

Lemma visitSections_fields layout pos ids :
  ∀ sd,
    let sd' := foldl (visitSection layout pos) sd ids in
    navLinks sd'.1 = navLinks sd.1 ∧ sections sd'.1 = sections sd.1
    ∧ isScrolling sd'.1 = isScrolling sd.1
    ∧ scrollTimers sd'.1 = scrollTimers sd.1.
Proof.
  induction ids as [|id ids IH]; intros sd; [done|].
  simpl. destruct (IH (visitSection layout pos sd id)) as (-> & -> & -> & ->).
  apply visitSection_fields.
Qed.

(** X21.  When no programmatic scroll is under way and the layout does
    not depend on the link classes, [updateActiveSection] makes the
    current section the last listed section whose box holds
    [scrollY + 100] (top included, bottom excluded), and leaves it as it
    is when no listed section does; the other fields keep their
    values. *)
Theorem updateActiveSection_picks_the_last_covering_section
    (layout : Layout) (boxes : jsstring → option (number * number))
    (w : Window) (st : State) (doc : Document) :
  isScrolling st = false →
  (∀ d id, layout d id = boxes id) →
  let sd := updateActiveSection layout w (st, doc) in
  currentSection sd.1
  = default (currentSection st)
      (last (List.filter
               (fun id => covers (boxes id) (scrollY w + 100)%float)
               (sections st)))
  ∧ navLinks sd.1 = navLinks st ∧ sections sd.1 = sections st
  ∧ isScrolling sd.1 = false ∧ scrollTimers sd.1 = scrollTimers st.
Proof.
  intros Hs Hl sd. unfold sd, updateActiveSection. simpl. rewrite Hs.
  split; [by apply visitSections_current|].
  destruct (visitSections_fields layout (scrollY w + 100)%float (sections st)
              (st, doc)) as (-> & -> & -> & ->).
  done.
Qed.

Lemma updateActiveSection_picks_the_last_covering_section_witness :
  currentSection
    (updateActiveSection nav_layout (scrolled_to_nav 750)
       (nav_manager, nav_page)).1
  = lit "about".
Proof.
  destruct (updateActiveSection_picks_the_last_covering_section
              nav_layout nav_boxes (scrolled_to_nav 750) nav_manager nav_page)
    as [H _]; [reflexivity | reflexivity |].
  rewrite H. vm_compute. reflexivity.
Defined.

(** X22.  A click on a link to a section of the page suspends scroll
    tracking: the section clicked becomes the current one at once, scroll
    events that follow change nothing, and tracking is on again as soon
    as one timer of [scrollToSection] fires, also while the timer of
    this click is still to come because an earlier click's timer was
    waiting. *)
Theorem click_suspends_scroll_tracking
    (layout : Layout) (id : jsstring) (st : State) (doc : Document)
    (scrolls : list (Layout * Window)) :
  is_Some (layout doc id) →
  let sd := scrollToSection layout id (st, doc) in
  currentSection sd.1 = id
  ∧ run (map (fun s => Scrolled s.1 s.2) scrolls) sd = sd
  ∧ isScrolling (scrollTimerFired sd).1 = false
  ∧ scrollTimers (scrollTimerFired sd).1 = scrollTimers st.
Proof.
  intros [box Hb] sd. unfold sd, scrollToSection. rewrite Hb.
  split; [done|]. split; [|done].
  induction scrolls as [|s scrolls IH]; [done|].
  unfold run in *. simpl. exact IH.
Qed.

Lemma click_suspends_scroll_tracking_witness :
  currentSection
    (run [Clicked nav_layout (lit "about");
          Scrolled nav_layout (scrolled_to_nav 0)]
       (nav_manager, nav_page)).1
  = lit "about".
Proof.
  destruct (click_suspends_scroll_tracking nav_layout (lit "about")
              nav_manager nav_page [(nav_layout, scrolled_to_nav 0)])
    as (H1 & H2 & _); [by eexists|].
  change (run [Clicked nav_layout (lit "about");
               Scrolled nav_layout (scrolled_to_nav 0)]
            (nav_manager, nav_page))
    with (run (map (fun s => Scrolled s.1 s.2)
                 [(nav_layout, scrolled_to_nav 0)])
            (scrollToSection nav_layout (lit "about") (nav_manager, nav_page))).
  rewrite H2. exact H1.
Defined.

End NavigationFacts.

(** ** The scroll listeners *)

Section ScrollListeners.
Import JSNumber PerformanceManager Samples.

Local Arguments lit : simpl never.
Local Arguments percentText : simpl never.













Lemma app_step_one_timer s ev :
  Timing.clearTimeout (Timing.timeout s.1) (Timing.timers s.1) = ∅ →
  Timing.clearTimeout (Timing.timeout (PortfolioApp.step s ev).1)
    (Timing.timers (PortfolioApp.step s ev).1) = ∅.
Proof.
  intros H. destruct ev as [page id|id|]; cbn [PortfolioApp.step fst snd].
  - rewrite executedFunction_one_timer by done. apply one_timer_waiting.
  - by apply later_one_timer.
  - by destruct (AnimationManager.animationFrame _).
Qed.

Lemma app_run_one_timer evs :
  ∀ s,
    Timing.clearTimeout (Timing.timeout s.1) (Timing.timers s.1) = ∅ →
    Timing.clearTimeout (Timing.timeout (PortfolioApp.run evs s).1)
      (Timing.timers (PortfolioApp.run evs s).1) = ∅.
Proof.
  induction evs as [|ev evs IH]; intros s H; [done|].
  unfold PortfolioApp.run in *. simpl. by apply IH, app_step_one_timer.
Qed.

Lemma app_scrolls burst :
  ∀ s,
    (PortfolioApp.run (map (fun b => PortfolioApp.Scroll b.1 b.2) burst) s).2.2
    = s.2.2.
Proof.
  induction burst as [|b burst IH]; intros s; [done|].
  unfold PortfolioApp.run in *. simpl. by rewrite IH.
Qed.

Lemma app_burst evs burst page id s :
  Timing.clearTimeout (Timing.timeout s.1) (Timing.timers s.1) = ∅ →
  let before := PortfolioApp.run evs s in
  PortfolioApp.run
    (map (fun b => PortfolioApp.Scroll b.1 b.2) burst
       ++ [PortfolioApp.Scroll page id]) before
  = (Timing.mkDebounced (Some id) {[id := tt]}, (page, before.2.2)).
Proof.
  intros H before.
  unfold PortfolioApp.run at 1. rewrite foldl_app. simpl.
  fold (PortfolioApp.run
          (map (fun b => PortfolioApp.Scroll b.1 b.2) burst) before).
  rewrite app_scrolls. f_equal.
  apply executedFunction_one_timer, app_run_one_timer.
  by apply app_run_one_timer.
Qed.

(** X23.  The application's scroll listener is debounced: while scroll
    events follow each other with no timer firing in between nothing of
    the three modules or the document changes; when the one waiting timer
    fires, the progress bar, the scroll animations and the active section
    are updated once, in this order, for the page as it is then; another
    timer has no effect. *)
Theorem scroll_listener_runs_once_after_a_burst
    (page0 : PortfolioApp.Page) (app0 : PortfolioApp.State)
    (evs : list PortfolioApp.Event) (burst : list (PortfolioApp.Page * nat))
    (page : PortfolioApp.Page) (id : nat) :
  let before :=
    PortfolioApp.run evs (PortfolioApp.setupEventListeners page0 app0) in
  let after :=
    PortfolioApp.run
      (map (fun b => PortfolioApp.Scroll b.1 b.2) burst
         ++ [PortfolioApp.Scroll page id]) before in
  after.2.2 = before.2.2
  ∧ (PortfolioApp.step after (PortfolioApp.Expire id)).2
    = (page, PortfolioApp.onScroll page before.2.2)
  ∧ (∀ id', id' ≠ id → PortfolioApp.step after (PortfolioApp.Expire id') = after)
  ∧ (∀ id',
       PortfolioApp.step (PortfolioApp.step after (PortfolioApp.Expire id))
         (PortfolioApp.Expire id')
       = PortfolioApp.step after (PortfolioApp.Expire id)).
Proof.
  intros before after.
  assert (E : after
              = (Timing.mkDebounced (Some id) {[id := tt]}, (page, before.2.2)))
    by by apply app_burst.
  rewrite E. split; [done|]. simpl. rewrite later_the_timer.
  split; [done|]. split.
  - intros id' Hne. unfold Timing.later. simpl.
    by rewrite lookup_singleton_ne.
  - intros id'. unfold Timing.later. simpl. by rewrite lookup_empty.
Qed.













End ScrollListeners.

(** ** Pausing the animations *)

Section PauseFacts.
Import AnimationPause Samples.

Local Arguments lit : simpl never.

Lemma forEach_indexed_lookup (g : nat → Document → Document)
    (h : nat → Element → Element) nodes j :
  (∀ i (d : Document) k,
     g i d !! k = if decide (k = i) then h k <$> d !! k else d !! k) →
  (∀ i el, h i (h i el) = h i el) →
  ∀ doc : Document,
    forEach g nodes doc !! j
    = if decide (j ∈ nodes) then h j <$> doc !! j else doc !! j.
Proof.
  intros Hg Hh. induction nodes as [|a nodes IH]; intros doc.
  - rewrite decide_False by apply not_elem_of_nil. done.
  - unfold forEach in *. simpl. rewrite IH, Hg.
    destruct (decide (j = a)) as [->|Hne].
    + rewrite (decide_True (P := a ∈ a :: nodes)) by left.
      destruct (decide (a ∈ nodes)); [|done].
      destruct (doc !! a); simpl; [by rewrite Hh | done].
    + destruct (decide (j ∈ nodes)) as [Hin|Hnin].
      * by rewrite decide_True by by right.
      * rewrite decide_False; [done|].
        intros [?|?]%elem_of_cons; done.
Qed.

Lemma forEach_all_lookup (g : nat → Document → Document)
    (h : nat → Element → Element) (doc : Document) j :
  (∀ i (d : Document) k,
     g i d !! k = if decide (k = i) then h k <$> d !! k else d !! k) →
  (∀ i el, h i (h i el) = h i el) →
  forEach g (allElements doc) doc !! j = h j <$> doc !! j.
Proof.
  intros Hg Hh. rewrite (forEach_indexed_lookup g h) by done.
  destruct (decide _) as [|Hn]; [done|].
  unfold allElements in Hn. rewrite elem_of_elements, elem_of_dom in Hn.
  destruct (doc !! j) as [el|] eqn:E; [|done].
  exfalso. apply Hn. by eexists.
Qed.

Lemma pauseElement_lookup animated i (d : Document) k :
  pauseElement animated i d !! k
  = if decide (k = i)
    then (fun el => if animated k
                    then set_style animationPlayState paused el else el)
           <$> d !! k
    else d !! k.
Proof.
  unfold pauseElement. destruct (decide (k = i)) as [->|Hne].
  - destruct (animated i); [by rewrite lookup_alter_eq|].
    by destruct (d !! i).
  - destruct (animated i); [by rewrite lookup_alter_ne | done].
Qed.

Lemma alter_lookup_decide (f : Element → Element) i (d : Document) k :
  alter f i d !! k = if decide (k = i) then f <$> d !! k else d !! k.
Proof.
  destruct (decide (k = i)) as [->|Hne];
    [by rewrite lookup_alter_eq | by rewrite lookup_alter_ne].
Qed.

Lemma set_style_twice p v el : set_style p v (set_style p v el) = set_style p v el.
Proof. unfold set_style. simpl. by rewrite insert_insert_eq. Qed.

Lemma paused_is_not_running : paused ≠ running.
Proof. vm_compute. discriminate. Qed.

Lemma play_state_names : animationPlayState ≠ playStateProperty.
Proof. vm_compute. discriminate. Qed.

Lemma resumeElement_idem el : resumeElement (resumeElement el) = resumeElement el.
Proof.
  unfold resumeElement at 2 3.
  destruct (style el !! animationPlayState) as [v|] eqn:E.
  - unfold JSString.strict_eq.
    destruct (bool_decide_reflect (v = paused)) as [->|Hne].
    + unfold resumeElement, set_style. simpl. rewrite lookup_insert_eq.
      unfold JSString.strict_eq.
      rewrite bool_decide_eq_false_2; [done|].
      intros H. by apply paused_is_not_running.
    + unfold resumeElement. rewrite E. unfold JSString.strict_eq.
      by rewrite bool_decide_eq_false_2.
  - unfold resumeElement. by rewrite E.
Qed.

Lemma pauseAnimations_lookup animated body st (doc : Document) j :
  isAnimationsPaused st = false →
  (pauseAnimations animated body (st, doc)).2 !! j
  = (fun el =>
       let el1 := if decide (j = body)
                  then set_style playStateProperty paused el else el in
       if animated j then set_style animationPlayState paused el1 else el1)
      <$> doc !! j.
Proof.
  intros Hp. unfold pauseAnimations. simpl. rewrite Hp. simpl.
  rewrite (forEach_all_lookup _
             (fun k el => if animated k
                          then set_style animationPlayState paused el else el));
    [| apply pauseElement_lookup
     | intros i el; destruct (animated i); [apply set_style_twice | done]].
  rewrite alter_lookup_decide.
  destruct (decide (j = body)); [|done].
  by destruct (doc !! j).
Qed.

Lemma resumeAnimations_lookup body st (doc : Document) j :
  isAnimationsPaused st = true →
  (resumeAnimations body (st, doc)).2 !! j
  = (fun el =>
       resumeElement (if decide (j = body)
                      then set_style playStateProperty running el else el))
      <$> doc !! j.
Proof.
  intros Hp. unfold resumeAnimations. simpl. rewrite Hp. simpl.
  rewrite (forEach_all_lookup _ (fun _ => resumeElement));
    [| intros i d k; apply alter_lookup_decide
     | intros i el; apply resumeElement_idem].
  rewrite alter_lookup_decide.
  destruct (decide (j = body)); [|done].
  by destruct (doc !! j).
Qed.

Lemma resumeElement_fields el :
  classList (resumeElement el) = classList el
  ∧ dataset (resumeElement el) = dataset el
  ∧ style (resumeElement el) !! animationPlayState
    = (if bool_decide (style el !! animationPlayState = Some paused)
       then Some running else style el !! animationPlayState)
  ∧ ∀ p, p ≠ animationPlayState →
         style (resumeElement el) !! p = style el !! p.
Proof.
  unfold resumeElement.
  destruct (style el !! animationPlayState) as [v|] eqn:E.
  - unfold JSString.strict_eq.
    destruct (bool_decide_reflect (v = paused)) as [->|Hne].
    + rewrite bool_decide_eq_true_2 by done. simpl.
      rewrite lookup_insert_eq. repeat split; try done.
      intros p Hp. by rewrite lookup_insert_ne.
    + rewrite bool_decide_eq_false_2 by congruence. by rewrite E.
  - rewrite bool_decide_eq_false_2 by done. by rewrite E.
Qed.

(** X26.  Pausing and resuming does not put the page back: afterwards
    every element that is animated, or whose inline
    [animationPlayState] was 'paused' before, carries the inline
    declaration 'running', whatever it had; the other elements keep
    theirs.  The body has '--animation-play-state' set to 'running'.
    Classes, data attributes and all other style properties are
    untouched, and no element is added or removed. *)
Theorem pause_then_resume_leaves_running
    (animated : nat → bool) (body : nat) (st : State) (doc : Document) :
  isAnimationsPaused st = false →
  let sd :=
    resumeAnimations body (pauseAnimations animated body (st, doc)) in
  isAnimationsPaused sd.1 = false
  ∧ (∀ j, doc !! j = None → sd.2 !! j = None)
  ∧ ∀ j el, doc !! j = Some el →
      ∃ el', sd.2 !! j = Some el'
        ∧ classList el' = classList el
        ∧ dataset el' = dataset el
        ∧ style el' !! animationPlayState
          = (if animated j
                || bool_decide (style el !! animationPlayState = Some paused)
             then Some running else style el !! animationPlayState)
        ∧ (j = body → style el' !! playStateProperty = Some running)
        ∧ (∀ p, p ≠ animationPlayState → p ≠ playStateProperty →
                style el' !! p = style el !! p).
Proof.
  intros Hp sd.
  assert (E : ∀ j,
            sd.2 !! j
            = (fun el =>
                 resumeElement
                   (if decide (j = body)
                    then set_style playStateProperty running el else el))
                <$> (pauseAnimations animated body (st, doc)).2 !! j).
  { intros j. unfold sd.
    destruct (pauseAnimations animated body (st, doc)) as [st1 doc1] eqn:E1.
    apply resumeAnimations_lookup.
    unfold pauseAnimations in E1. simpl in E1. rewrite Hp in E1.
    by injection E1 as <- _. }
  split.
  { unfold sd, pauseAnimations, resumeAnimations. simpl. by rewrite Hp. }
  split.
  { intros j Hj. by rewrite E, pauseAnimations_lookup, Hj. }
  intros j el Hj. rewrite E, pauseAnimations_lookup, Hj by done. simpl.
  eexists. split; [reflexivity|].
  set (el1 := if decide (j = body)
              then set_style playStateProperty paused el else el).
  set (el2 := if animated j
              then set_style animationPlayState paused el1 else el1).
  set (el3 := if decide (j = body)
              then set_style playStateProperty running el2 else el2).
  destruct (resumeElement_fields el3) as (Hc & Hd & Hs & Ho).
  assert (C3 : classList el3 = classList el ∧ dataset el3 = dataset el).
  { unfold el3, el2, el1.
    destruct (decide (j = body)); by destruct (animated j). }
  assert (A3 : style el3 !! animationPlayState
               = if animated j then Some paused
                 else style el !! animationPlayState).
  { unfold el3, el2, el1.
    destruct (decide (j = body)); destruct (animated j); simpl;
      rewrite ?(lookup_insert_ne _ playStateProperty)
        by (intros H; symmetry in H; by apply play_state_names);
      rewrite ?lookup_insert_eq;
      rewrite ?(lookup_insert_ne _ playStateProperty)
        by (intros H; symmetry in H; by apply play_state_names);
      done. }
  rewrite Hc, Hd, Hs, A3. destruct C3 as [-> ->].
  split; [done|]. split; [done|]. split.
  { by destruct (animated j). }
  split.
  - intros ->. rewrite Ho by (intros H; symmetry in H; by apply play_state_names).
    unfold el3. rewrite decide_True by done. simpl. apply lookup_insert_eq.
  - intros p Hp1 Hp2. rewrite Ho by done.
    unfold el3, el2, el1.
    destruct (decide (j = body)); destruct (animated j); simpl;
      rewrite ?lookup_insert_ne by done; done.
Qed.

Lemma pause_then_resume_leaves_running_witness :
  ∃ el', (resumeAnimations 1
            (pauseAnimations spinner_only 1 (mkState false, animated_page))).2
           !! 2%nat = Some el'
         ∧ style el' !! animationPlayState = Some running.
Proof.
  destruct (pause_then_resume_leaves_running spinner_only 1 (mkState false)
              animated_page eq_refl) as (_ & _ & H).
  destruct (H 2%nat (mkElement [lit "spinner"] ∅ ∅) eq_refl)
    as (el' & H1 & _ & _ & H2 & _).
  exists el'. split; [exact H1 | exact H2].
Defined.

(** X27.  [cleanup] while the animations are paused leaves them paused
    for good: it clears the flag without resuming, so the next
    [resumeAnimations] does nothing and every animated element keeps its
    inline 'paused'. *)
Theorem cleanup_while_paused_leaves_animations_paused
    (animated : nat → bool) (body : nat) (st : State) (doc : Document) :
  isAnimationsPaused st = false →
  let halted := cleanup (pauseAnimations animated body (st, doc)) in
  resumeAnimations body halted = halted
  ∧ ∀ j el, doc !! j = Some el → animated j = true →
      ∃ el', (resumeAnimations body halted).2 !! j = Some el'
             ∧ style el' !! animationPlayState = Some paused.
Proof.
  intros Hp halted.
  assert (E : resumeAnimations body halted = halted) by done.
  split; [exact E|]. intros j el Hj Ha. rewrite E.
  unfold halted, cleanup. simpl.
  rewrite pauseAnimations_lookup, Hj by done. simpl.
  eexists. split; [reflexivity|]. rewrite Ha. simpl. apply lookup_insert_eq.
Qed.

Lemma cleanup_while_paused_leaves_animations_paused_witness :
  ∃ el', (visibilityChange spinner_only 1 false
            (cleanup
               (visibilityChange spinner_only 1 true
                  (mkState false, animated_page)))).2 !! 2%nat = Some el'
         ∧ style el' !! animationPlayState = Some paused.
Proof.
  destruct (cleanup_while_paused_leaves_animations_paused spinner_only 1
              (mkState false) animated_page eq_refl) as [_ H].
  exact (H 2%nat (mkElement [lit "spinner"] ∅ ∅) eq_refl eq_refl).
Defined.

End PauseFacts.

(** ** Adding a fade-in element *)

Section LifecycleFacts.
Import AnimationManager AnimationLifecycle Examples.

Local Arguments lit : simpl never.

Lemma addFadeInElement_observer element fd :
  (fadeIsArray fd.1 = true → observer fd.1 = None) →
  observer (result (addFadeInElement element fd)).1 = observer fd.1
  ∧ (fadeIsArray (result (addFadeInElement element fd)).1 = true →
     observer (result (addFadeInElement element fd)).1 = None).
Proof.
  intros H. unfold addFadeInElement.
  destruct element as [i|]; [|done].
  destruct (fd.2 !! i) as [el|]; [|done].
  destruct (negb _); [|done].
  destruct (fadeIsArray fd.1) eqn:Ea.
  - rewrite H by done. done.
  - simpl. split; [done|]. intros E. congruence.
Qed.

Lemma lifecycle_observer evs :
  ∀ fd,
    (fadeIsArray fd.1 = true → observer fd.1 = None) →
    (fadeIsArray (run evs fd).1 = true → observer (run evs fd).1 = None)
    ∧ (observer (run evs fd).1 = observer fd.1 ∨ observer (run evs fd).1 = None).
Proof.
  induction evs as [|ev evs IH]; intros fd H; [by split; [|left]|].
  unfold run in *. simpl.
  destruct ev as [element|]; simpl.
  - destruct (addFadeInElement_observer element fd H) as [E1 E2].
    destruct (IH _ E2) as [G1 G2]. split; [exact G1|].
    by rewrite <- E1.
  - destruct (IH (destroy fd)) as [G1 G2]; [done|]. split; [exact G1|].
    right. by destruct G2 as [->| ->].
Qed.

(** X28.  [addFadeInElement] never takes a new element in: in every
    state the constructor, [destroy] and earlier calls lead to, a call
    for an element without the class 'fade-in' adds the class and then
    ends in a TypeError (the NodeList has no [push]; after [destroy] the
    observer is [null]), so the observer never gets a target beyond those
    of the constructor.  A call without an element, or for one that has
    the class, does nothing. *)
Theorem addFadeInElement_never_takes_a_new_element
    (fade floating : list nat) (doc : Document) (evs : list Event) :
  let fd := run evs (init fade floating doc) in
  (observer fd.1 = observer (init fade floating doc).1 ∨ observer fd.1 = None)
  ∧ addFadeInElement None fd = Normal fd
  ∧ ∀ i el, fd.2 !! i = Some el →
      if contains fadeIn el then addFadeInElement (Some i) fd = Normal fd
      else ∃ fd', addFadeInElement (Some i) fd = TypeError fd'
                  ∧ fd'.2 = <[i := classList_add fadeIn el]> fd.2
                  ∧ observer fd'.1 = observer fd.1.
Proof.
  intros fd.
  destruct (lifecycle_observer evs (init fade floating doc)) as [H1 H2];
    [done|]. fold fd in H1, H2.
  split; [exact H2|]. split; [done|].
  intros i el Hel. unfold addFadeInElement. rewrite Hel.
  destruct (contains fadeIn el); simpl; [done|].
  destruct (fadeIsArray fd.1) eqn:Ea.
  - rewrite H1 by done. by eexists.
  - by eexists.
Qed.

Lemma addFadeInElement_never_takes_a_new_element_witness :
  ∃ fd',
    addFadeInElement (Some 0%nat) (init [] [0%nat] (floating_page (lit "0.5")))
    = TypeError fd'.
Proof.
  destruct (addFadeInElement_never_takes_a_new_element [] [0%nat]
              (floating_page (lit "0.5")) []) as (_ & _ & H).
  assert (Hel : (run [] (init [] [0%nat] (floating_page (lit "0.5")))).2
                  !! 0%nat
                = Some (mkElement [lit "floating-element"]
                          {[ speed := lit "0.5" ]} ∅))
    by (vm_compute; reflexivity).
  specialize (H _ _ Hel).
  assert (Hc : contains fadeIn
                 (mkElement [lit "floating-element"]
                    {[ speed := lit "0.5" ]} ∅) = false)
    by (vm_compute; reflexivity).
  rewrite Hc in H. destruct H as (fd' & E & _).
  exists fd'. exact E.
Defined.

End LifecycleFacts.
